(** * rms-translator: a shallow embedding of [translator/__init__.py]

    The translator classes ([TranslatorBySequence], [TranslatorByDict],
    [TranslatorByRegex], [NullTranslator], [SelfTranslator]) are embedded
    as one inductive type; their methods become functions that return in
    an exception monad.  Python strings are modelled as strings of 8-bit
    characters ([string]); [eval], [re.compile], [str.upper] and
    [str.lower] are parameters of the embedding. *)

From Stdlib Require Import ZArith Ascii String List Lia Sorted.
From stdpp Require Import base decidable option list strings gmap.

Set Warnings "-register-all".

(** ** Python values and exceptions *)

(** The values that flow through a translator: strings, integers, tuples,
    lists and [None]. *)
Inductive value : Type :=
  | VStr (s : string)
  | VInt (n : Z)
  | VTuple (items : list value)
  | VList (items : list value)
  | VNone.

(** The exceptions the embedded code can raise.  [NotModelled] marks the
    edge of the fragment of [re] that [PyRe] below covers. *)
Inductive exn : Type :=
  | IndexError
  | TypeError
  | AssertionError
  | ReError
  | RecursionError
  | NotModelled
  | EvalError (msg : string).

Inductive res (A : Type) : Type :=
  | Ok (a : A)
  | Raise (e : exn).
Arguments Ok {A} a.
Arguments Raise {A} e.

Definition res_bind {A B : Type} (m : res A) (k : A -> res B) : res B :=
  match m with
  | Ok a => k a
  | Raise e => Raise e
  end.

Notation "'let*' x ':=' m 'in' k" := (res_bind m (fun x => k))
  (at level 10, x pattern, m at level 100, k at level 200).

Definition res_map {A B : Type} (f : A -> B) (m : res A) : res B :=
  let* a := m in Ok (f a).

Section Loops.
Context {A B : Type}.

Section ForEach.
Variable body : B -> A -> res B.

(** [for x in xs: acc = body(acc, x)], stopping at the first exception. *)
Fixpoint for_each (acc : B) (xs : list A) : res B :=
  match xs with
  | [] => Ok acc
  | x :: xs' => let* acc' := body acc x in for_each acc' xs'
  end.
End ForEach.

Section ForFirst.
Variable body : A -> res (option B).

(** [for x in xs: r = body(x); if r is not None: return r], then
    [return None]. *)
Fixpoint for_first (xs : list A) : res (option B) :=
  match xs with
  | [] => Ok None
  | x :: xs' =>
      let* r := body x in
      match r with
      | Some b => Ok (Some b)
      | None => for_first xs'
      end
  end.
End ForFirst.
End Loops.

Section ListEqb.
Context {A : Type}.
Variable eqb : A -> A -> bool.

(** Equality of two lists, item by item. *)
Fixpoint list_eqb (l k : list A) : bool :=
  match l, k with
  | [], [] => true
  | x :: l', y :: k' => eqb x y && list_eqb l' k'
  | _, _ => false
  end.
End ListEqb.

(** Structural equality of values: Python's [==] on strings, integers,
    tuples, lists and [None]. *)
Fixpoint value_eqb (a b : value) {struct a} : bool :=
  match a, b with
  | VStr s, VStr t => String.eqb s t
  | VInt n, VInt m => Z.eqb n m
  | VTuple l, VTuple k => list_eqb value_eqb l k
  | VList l, VList k => list_eqb value_eqb l k
  | VNone, VNone => true
  | _, _ => false
  end.

(** [item in results] *)
Fixpoint value_in (item : value) (results : list value) : bool :=
  match results with
  | [] => false
  | r :: rs => value_eqb r item || value_in item rs
  end.

(** [if item not in results: results.append(item)] *)
Definition append_new (results : list value) (item : value) : list value :=
  if value_in item results then results else results ++ [item].

(** [for item in items: if item not in results: results.append(item)] *)
Definition extend_new (results items : list value) : list value :=
  fold_left append_new items results.

(** Truth value of an object, as tested by [if partial_results:]. *)
Definition truthy (v : value) : bool :=
  match v with
  | VStr s => negb (String.eqb s "")
  | VInt n => negb (Z.eqb n 0)
  | VTuple l | VList l => match l with [] => false | _ => true end
  | VNone => false
  end.

Fixpoint chars (s : string) : list value :=
  match s with
  | EmptyString => []
  | String c s' => VStr (String c EmptyString) :: chars s'
  end.

(** [for item in v]: a string yields its characters, a list or tuple its
    elements; a number and [None] are not iterable. *)
Definition py_iter (v : value) : res (list value) :=
  match v with
  | VStr s => Ok (chars s)
  | VTuple l | VList l => Ok l
  | VInt _ | VNone => Raise TypeError
  end.

(** [hash(v)] succeeds unless a list occurs in [v]. *)
Fixpoint hashable (v : value) : bool :=
  match v with
  | VStr _ | VInt _ | VNone => true
  | VTuple l => forallb hashable l
  | VList _ => false
  end.

(** ** String primitives *)

Definition is_char (c d : ascii) : bool := Ascii.eqb c d.

(** [s.startswith(p)] *)
Fixpoint startswith (p s : string) : bool :=
  match p with
  | EmptyString => true
  | String c p' =>
      match s with
      | EmptyString => false
      | String d s' => is_char c d && startswith p' s'
      end
  end.

(** [s.replace(old, new)] for a non-empty [old]: non-overlapping
    occurrences, scanned from the left.  [skip] counts the characters of
    an occurrence still to be dropped. *)
Fixpoint replace_from (old new : string) (skip : nat) (s : string) : string :=
  match s with
  | EmptyString => EmptyString
  | String c s' =>
      match skip with
      | S k => replace_from old new k s'
      | O =>
          if startswith old s
          then new +:+ replace_from old new (String.length old - 1) s'
          else String c (replace_from old new 0 s')
      end
  end.

Definition str_replace (old new s : string) : string :=
  replace_from old new 0 s.

(** [s.split(sep)] for a one-character separator. *)
Fixpoint str_split (sep : ascii) (s : string) : list string :=
  match s with
  | EmptyString => [EmptyString]
  | String c s' =>
      if is_char c sep then EmptyString :: str_split sep s'
      else match str_split sep s' with
           | p :: ps => String c p :: ps
           | [] => [String c EmptyString]
           end
  end.

(** [''.join(parts)] *)
Fixpoint str_join (parts : list string) : string :=
  match parts with
  | [] => EmptyString
  | p :: ps => p +:+ str_join ps
  end.

Definition upper_char (c : ascii) : ascii :=
  let n := nat_of_ascii c in
  if (97 <=? n)%nat && (n <=? 122)%nat then ascii_of_nat (n - 32) else c.

Definition lower_char (c : ascii) : ascii :=
  let n := nat_of_ascii c in
  if (65 <=? n)%nat && (n <=? 90)%nat then ascii_of_nat (n + 32) else c.

Fixpoint str_map (f : ascii -> ascii) (s : string) : string :=
  match s with
  | EmptyString => EmptyString
  | String c s' => String (f c) (str_map f s')
  end.

(** [s.upper()] and [s.lower()].  Python converts by the tables of
    Unicode (the upper case of [straße] is [STRASSE]); the translators
    only call the two methods, so the embedding takes them as given. *)
Class StrMethods : Type := {
  str_upper : string -> string;
  str_lower : string -> string
}.

(** The two methods on ASCII text, where they change the 26 letters and
    nothing else.  The examples on closed terms are computed with them. *)
#[global] Instance ascii_methods : StrMethods := {|
  str_upper := str_map upper_char;
  str_lower := str_map lower_char
|}.



(** ** The parts of Python's [re] module the translators use *)

(** A match object: the text of every group (group 0 is the whole match,
    [None] for a group that did not take part) and the names of the
    named groups. *)
Record MatchObj : Type := mkMatch {
  mo_groups : list (option string);
  mo_groupindex : list (string * nat)
}.

(** A compiled pattern: its source text, its flags, and what
    [regex.match(string)] returns. *)
Record Pattern : Type := mkPattern {
  pattern : string;
  flags : Z;
  pat_match : string -> option MatchObj
}.

Definition is_digit (c : ascii) : bool :=
  let n := nat_of_ascii c in (48 <=? n)%nat && (n <=? 57)%nat.

Definition is_octdigit (c : ascii) : bool :=
  let n := nat_of_ascii c in (48 <=? n)%nat && (n <=? 55)%nat.

Definition is_letter (c : ascii) : bool :=
  let n := nat_of_ascii c in
  ((65 <=? n)%nat && (n <=? 90)%nat) || ((97 <=? n)%nat && (n <=? 122)%nat).

Definition digit_val (c : ascii) : nat := nat_of_ascii c - 48.

Fixpoint all_chars (p : ascii -> bool) (s : string) : bool :=
  match s with
  | EmptyString => true
  | String c s' => p c && all_chars p s'
  end.

Fixpoint decimal_val (acc : nat) (s : string) : nat :=
  match s with
  | EmptyString => acc
  | String c s' => decimal_val (10 * acc + digit_val c) s'
  end.

(** [name.isidentifier()] on ASCII names. *)
Definition is_identifier (name : string) : bool :=
  match name with
  | EmptyString => false
  | String c _ =>
      negb (is_digit c) &&
      all_chars (fun x => is_letter x || is_digit x || is_char x "_") name
  end.

(** The single-character escapes of a replacement template. *)
Definition template_escape (c : ascii) : option ascii :=
  if is_char c "a" then Some (ascii_of_nat 7)
  else if is_char c "b" then Some (ascii_of_nat 8)
  else if is_char c "f" then Some (ascii_of_nat 12)
  else if is_char c "n" then Some (ascii_of_nat 10)
  else if is_char c "r" then Some (ascii_of_nat 13)
  else if is_char c "t" then Some (ascii_of_nat 9)
  else if is_char c "v" then Some (ascii_of_nat 11)
  else if is_char c "\" then Some "\"%char
  else None.

(** The text a template's reference to group [i] stands for; a group that
    did not take part gives the empty string. *)
Definition group_text (m : MatchObj) (i : nat) : res string :=
  match mo_groups m !! i with
  | Some (Some s) => Ok s
  | Some None => Ok EmptyString
  | None => Raise ReError
  end.

Fixpoint assoc_find (name : string) (l : list (string * nat)) : option nat :=
  match l with
  | [] => None
  | (n, i) :: l' => if String.eqb n name then Some i else assoc_find name l'
  end.

(** [\g<name>] *)
Definition named_group_text (m : MatchObj) (name : string) : res string :=
  if String.eqb name "" then Raise ReError
  else if all_chars is_digit name then group_text m (decimal_val 0 name)
  else if is_identifier name then
    match assoc_find name (mo_groupindex m) with
    | Some i => group_text m i
    | None => Raise IndexError
    end
  else Raise ReError.

(** Where the template scanner stands after the characters read so far. *)
Inductive tstate : Type :=
  | TNormal
  | TEsc
  | TZero (n k : nat)
  | TDig1 (c : nat)
  | TDig2 (c d : nat)
  | TG
  | TGName (acc : string).

(** [matchobj.expand(template)]: group references [\1] .. [\99] and
    [\g<..>], octal escapes, the single-character escapes; an unknown
    escape of a letter, a dangling backslash and a reference to a group
    the pattern does not have raise [re.error]. *)
Fixpoint expand_from (m : MatchObj) (st : tstate) (t : string) : res string :=
  match t with
  | EmptyString =>
      match st with
      | TNormal => Ok EmptyString
      | TEsc | TG | TGName _ => Raise ReError
      | TZero n _ => Ok (String (ascii_of_nat n) EmptyString)
      | TDig1 c => group_text m c
      | TDig2 c d => group_text m (10 * c + d)
      end
  | String x t' =>
      let normal (_ : unit) : res string :=
        if is_char x "\" then expand_from m TEsc t'
        else res_map (String x) (expand_from m TNormal t') in
      match st with
      | TNormal => normal tt
      | TEsc =>
          if is_char x "g" then expand_from m TG t'
          else if is_char x "0" then expand_from m (TZero 0 2) t'
          else if is_digit x then expand_from m (TDig1 (digit_val x)) t'
          else match template_escape x with
               | Some e => res_map (String e) (expand_from m TNormal t')
               | None =>
                   if is_letter x then Raise ReError
                   else res_map (fun r => String "\" (String x r))
                          (expand_from m TNormal t')
               end
      | TZero n k =>
          match k with
          | S k' =>
              if is_octdigit x then expand_from m (TZero (8 * n + digit_val x) k') t'
              else res_map (String (ascii_of_nat n)) (normal tt)
          | O => res_map (String (ascii_of_nat n)) (normal tt)
          end
      | TDig1 c =>
          if is_digit x then expand_from m (TDig2 c (digit_val x)) t'
          else let* g := group_text m c in res_map (String.app g) (normal tt)
      | TDig2 c d =>
          if (c <=? 7)%nat && (d <=? 7)%nat && is_octdigit x then
            let n := 64 * c + 8 * d + digit_val x in
            if (255 <? n)%nat then Raise ReError
            else res_map (String (ascii_of_nat n)) (expand_from m TNormal t')
          else let* g := group_text m (10 * c + d) in
               res_map (String.app g) (normal tt)
      | TG =>
          if is_char x "<" then expand_from m (TGName EmptyString) t'
          else Raise ReError
      | TGName acc =>
          if is_char x ">" then
            let* g := named_group_text m acc in
            res_map (String.app g) (expand_from m TNormal t')
          else expand_from m (TGName (acc +:+ String x EmptyString)) t'
      end
  end.

Definition match_expand (m : MatchObj) (template : string) : res string :=
  expand_from m TNormal template.

Definition newline : ascii := ascii_of_nat 10.

(** The tail [.*?\]] of the in-line dictionary pattern: the text up to
    and including the first closing bracket on the line. *)
Fixpoint dict_index_part (s : string) : option string :=
  match s with
  | EmptyString => None
  | String c s' =>
      if is_char c "]" then Some (String c EmptyString)
      else if is_char c newline then None
      else option_map (String c) (dict_index_part s')
  end.

(** [s[n:]] *)
Fixpoint str_drop (n : nat) (s : string) : string :=
  match n, s with
  | S n', String _ s' => str_drop n' s'
  | _, _ => s
  end.

(** The middle [.*?}\[.*?\]] of the pattern, tried at every position of
    the line in turn (the non-greedy [.*?] grows one character at a
    time). *)
Fixpoint dict_body_part (s : string) : option string :=
  let here :=
    if startswith "}[" s
    then option_map (String.app "}[") (dict_index_part (str_drop 2 s))
    else None in
  match here with
  | Some r => Some r
  | None =>
      match s with
      | EmptyString => None
      | String c s' =>
          if is_char c newline then None
          else option_map (String c) (dict_body_part s')
      end
  end.

(** A match of [{.*?}\[.*?\]] starting at the first character of [s]. *)
Definition dict_match_at (s : string) : option string :=
  match s with
  | String c s' =>
      if is_char c "{" then option_map (String c) (dict_body_part s') else None
  | EmptyString => None
  end.

(** [re.findall(r'{.*?}\[.*?\]', string)]: the non-overlapping matches,
    from the left. *)
Fixpoint findall_from (skip : nat) (s : string) : list string :=
  match s with
  | EmptyString => []
  | String _ s' =>
      match skip with
      | S k => findall_from k s'
      | O =>
          match dict_match_at s with
          | Some d => d :: findall_from (String.length d - 1) s'
          | None => findall_from 0 s'
          end
      end
  end.

Definition findall_dict (s : string) : list string := findall_from 0 s.



(** ** The translator classes *)

(** The class attribute [TAG]. *)
Inductive TAG : Type := SEQUENCE | DICT | REGEX | NULL | SELF.

Definition TAG_eqb (a b : TAG) : bool :=
  match a, b with
  | SEQUENCE, SEQUENCE | DICT, DICT | REGEX, REGEX | NULL, NULL | SELF, SELF => true
  | _, _ => false
  end.

(** One constructor per class, carrying the instance attributes:
    [self.sequence]; [self.dict] and [self.path_translator]; [self.tuples]. *)
Inductive Translator : Type :=
  | TranslatorBySequence (sequence : list Translator)
  | TranslatorByDict (dict : gmap string value) (path_translator : option Translator)
  | TranslatorByRegex (tuples : list (Pattern * value))
  | NullTranslator
  | SelfTranslator.

Definition tag (t : Translator) : TAG :=
  match t with
  | TranslatorBySequence _ => SEQUENCE
  | TranslatorByDict _ _ => DICT
  | TranslatorByRegex _ => REGEX
  | NullTranslator => NULL
  | SelfTranslator => SELF
  end.

(** An object handed to a constructor: a translator or some other value. *)
Inductive pyobj : Type :=
  | PTranslator (t : Translator)
  | PValue (v : value).

(** An element of the list given to [TranslatorByRegex]: a 2-tuple whose
    first item is a pattern string, a 2-tuple whose first item is a
    compiled pattern, or a 3-tuple with flags. *)
Inductive rule : Type :=
  | Rule2S (regex_string : string) (replacement : value)
  | Rule2C (compiled : Pattern) (replacement : value)
  | Rule3 (regex_string : string) (rule_flags : Z) (replacement : value).

(** The [strings] argument of [all] and [first]: a string or a list of
    strings. *)
Inductive strings_arg : Type :=
  | Str (s : string)
  | Strs (l : list string).

(** [if isinstance(strings, str): strings = [strings]] *)
Definition as_list (strings : strings_arg) : list string :=
  match strings with
  | Str s => [s]
  | Strs l => l
  end.

(** The argument itself, as the value [SelfTranslator.all] returns. *)
Definition as_value (strings : strings_arg) : value :=
  match strings with
  | Str s => VStr s
  | Strs l => VList (map VStr l)
  end.

(** The states of [change] in [_fix_case]. *)
Inductive case_mode : Type := MIXED | UPPER | LOWER.

(** [part in ('LOWER', 'UPPER', 'MIXED')] *)
Definition marker (part : string) : option case_mode :=
  if String.eqb part "LOWER" then Some LOWER
  else if String.eqb part "UPPER" then Some UPPER
  else if String.eqb part "MIXED" then Some MIXED
  else None.

Definition apply_case {str_methods : StrMethods} (change : case_mode) (part : string)
  : string :=
  match change with
  | UPPER => str_upper part
  | LOWER => str_lower part
  | MIXED => part
  end.

(** One round of the loop of [_fix_case] over the state
    [(newparts, change, literal_hash)]. *)
Definition fix_case_step {str_methods : StrMethods}
  (st : list string * case_mode * bool) (part : string)
  : list string * case_mode * bool :=
  let '(newparts, change, literal_hash) := st in
  match marker part with
  | Some m => (newparts, m, false)
  | None =>
      let part := apply_case change part in
      let newparts := if literal_hash then newparts ++ ["#"] else newparts in
      (newparts ++ [part], change, true)
  end.

(** [_fix_case(string)] *)
Definition _fix_case {str_methods : StrMethods} (str : string) : string :=
  let parts := str_split "#" str in
  let '(newparts, _, _) := fold_left fix_case_step parts ([], MIXED, false) in
  str_join newparts.

(** [TranslatorByDict.expand(results, key)] *)
Definition dict_expand (results : value) (key : string) : list value :=
  let results := match results with VList l => l | _ => [results] end in
  map (fun result =>
         match result with
         | VStr s => VStr (str_replace "\1" key s)
         | VTuple items =>
             VTuple (map (fun item =>
                            match item with
                            | VStr s => VStr (str_replace "\1" key s)
                            | _ => item
                            end) items)
         | _ => result
         end) results.

(** [key in self.dict], with the stored value when the key is there. The
    keys of the mapping are strings; an unhashable key raises. *)
Definition dict_find (dict : gmap string value) (key : value)
  : res (option (string * value)) :=
  match key with
  | VStr k => Ok (option_map (fun v => (k, v)) (dict !! k))
  | _ => if hashable key then Ok None else Raise TypeError
  end.

(** What the caller of [first] receives when the method executes
    [return x]: [Some x], unless [x] is a stored [None], which is the
    [None] that says that nothing was found. *)
Definition returned (r : option value) : option value :=
  match r with
  | Some VNone => None
  | _ => r
  end.

(** [expanded[0]] *)
Definition first_item (expanded : list value) : res value :=
  match expanded with
  | x :: _ => Ok x
  | [] => Raise IndexError
  end.

Fixpoint as_translators (args : list pyobj) : res (list Translator) :=
  match args with
  | [] => Ok []
  | PTranslator t :: args' =>
      let* ts := as_translators args' in Ok (t :: ts)
  | PValue _ :: _ => Raise AssertionError
  end.

(** [TranslatorBySequence.__init__(args)] *)
Definition TranslatorBySequence_init (args : list pyobj) : res Translator :=
  let* sequence := as_translators args in
  Ok (TranslatorBySequence sequence).

(** The constructor called on translators, as the methods call it. *)
Definition new_sequence (args : list Translator) : res Translator :=
  TranslatorBySequence_init (map PTranslator args).

Section Translators.

(** Python's [str.upper] and [str.lower], [eval] and [re.compile], which
    the module calls. *)
Context {str_methods : StrMethods}.
Variable py_eval : string -> res value.
Variable re_compile : string -> Z -> res Pattern.

(** [_evaluate_dict(string)] *)
Definition _evaluate_dict (str : string) : res string :=
  let dicts := findall_dict str in
  for_each (fun str d =>
              let* value := py_eval d in
              match value with
              | VStr v => Ok (str_replace d v str)
              | _ => Raise TypeError
              end) str dicts.

(** [TranslatorByRegex.expand(regex, string, replacements)] *)
Definition expand (regex : Pattern) (str : string) (replacements : value)
  : res (list value) :=
  match pat_match regex str with
  | None => Ok []
  | Some matchobj =>
      let replacements :=
        match replacements with VList l => l | _ => [replacements] end in
      for_each (fun results replacement =>
        match replacement with
        | VStr r =>
            let* result := match_expand matchobj r in
            let result := _fix_case result in
            let* result := _evaluate_dict result in
            Ok (results ++ [VStr result])
        | VTuple t =>
            let* items :=
              for_each (fun items item =>
                match item with
                | VStr i =>
                    let* result := match_expand matchobj i in
                    let result := _fix_case result in
                    let* result := _evaluate_dict result in
                    let* again := match_expand matchobj result in
                    Ok (items ++ [VStr again])
                | _ => Ok (items ++ [item])
                end) [] t in
            Ok (results ++ [VTuple items])
        | _ => Ok (results ++ [replacement])
        end) [] replacements
  end.

(** [TranslatorByRegex.__init__(tuples)] *)
Definition TranslatorByRegex_init (tuples : list rule) : res Translator :=
  let* compiled_tuples :=
    for_each (fun compiled_tuples items =>
      match items with
      | Rule2S s v =>
          let* regex := re_compile ("^" +:+ s +:+ "$") 0 in
          Ok (compiled_tuples ++ [(regex, v)])
      | Rule2C p v => Ok (compiled_tuples ++ [(p, v)])
      | Rule3 s f v =>
          let* regex := re_compile ("^" +:+ s +:+ "$") f in
          Ok (compiled_tuples ++ [(regex, v)])
      end) [] tuples in
  Ok (TranslatorByRegex compiled_tuples).

(** The constructor called on tuples that are compiled already. *)
Definition new_regex (tuples : list (Pattern * value)) : res Translator :=
  TranslatorByRegex_init (map (fun t => Rule2C (fst t) (snd t)) tuples).

(** The body shared by the two loops of [all]: merge [partial_results]
    into [results] when it is true. *)
Definition merge_partial (results : list value) (partial_results : value)
  : res (list value) :=
  if truthy partial_results then
    let* items := py_iter partial_results in Ok (extend_new results items)
  else Ok results.

(** [translator.all(strings, strings_first)] *)
Fixpoint all (self : Translator) (strings : strings_arg) (strings_first : bool)
  {struct self} : res value :=
  match self with
  | TranslatorBySequence sequence =>
      let strings := as_list strings in
      res_map VList
        (if strings_first then
           for_each (fun results str =>
             for_each (fun results translator =>
               let* partial_results := all translator (Str str) false in
               merge_partial results partial_results) results sequence)
             [] strings
         else
           for_each (fun results translator =>
             let* partial_results := all translator (Strs strings) false in
             merge_partial results partial_results) [] sequence)
  | TranslatorByDict dict path_translator =>
      let strings := as_list strings in
      let* keys :=
        match path_translator with
        | None => Ok (map VStr strings)
        | Some pt => let* ks := all pt (Strs strings) false in py_iter ks
        end in
      res_map VList
        (for_each (fun results key =>
           let* found := dict_find dict key in
           match found with
           | Some (k, result) => Ok (extend_new results (dict_expand result k))
           | None => Ok results
           end) [] keys)
  | TranslatorByRegex tuples =>
      let strings := as_list strings in
      res_map VList
        (if strings_first then
           for_each (fun results str =>
             for_each (fun results t =>
               let* expanded := expand (fst t) str (snd t) in
               Ok (extend_new results expanded)) results tuples)
             [] strings
         else
           for_each (fun results t =>
             for_each (fun results str =>
               let* expanded := expand (fst t) str (snd t) in
               Ok (extend_new results expanded)) results strings)
             [] tuples)
  | NullTranslator => Ok (VList [])
  | SelfTranslator => Ok (as_value strings)
  end.

(** [translator.first(strings, strings_first)]; [None] is Python's [None].
    In the loops, [Some x] stands for [return x]; a sequence goes on to its
    next child when the child returned [None]. *)
Fixpoint first (self : Translator) (strings : strings_arg) (strings_first : bool)
  {struct self} : res (option value) :=
  match self with
  | TranslatorBySequence sequence =>
      let strings := as_list strings in
      if strings_first then
        for_first (fun str =>
          for_first (fun translator => first translator (Str str) false)
            sequence) strings
      else
        for_first (fun translator => first translator (Strs strings) false)
          sequence
  | TranslatorByDict dict path_translator =>
      let strings := as_list strings in
      let* keys :=
        match path_translator with
        | None => Ok (map VStr strings)
        | Some pt => let* ks := all pt (Strs strings) false in py_iter ks
        end in
      res_map returned
        (for_first (fun key =>
           let* found := dict_find dict key in
           match found with
           | Some (k, result) =>
               let* r := first_item (dict_expand result k) in Ok (Some r)
           | None => Ok None
           end) keys)
  | TranslatorByRegex tuples =>
      let strings := as_list strings in
      let try_one (t : Pattern * value) (str : string) : res (option value) :=
        let* expanded := expand (fst t) str (snd t) in
        match expanded with
        | x :: _ => Ok (Some x)
        | [] => Ok None
        end in
      res_map returned
        (if strings_first then
           for_first (fun str => for_first (fun t => try_one t str) tuples)
             strings
         else
           for_first (fun t => for_first (fun str => try_one t str) strings)
             tuples)
  | NullTranslator => Ok None
  | SelfTranslator =>
      match strings with
      | Str s =>
          match s with
          | String c _ => Ok (Some (VStr (String c EmptyString)))
          | EmptyString => Raise IndexError
          end
      | Strs l =>
          match l with
          | x :: _ => Ok (Some (VStr x))
          | [] => Raise IndexError
          end
      end
  end.

(** [self.sequence[-1]] and [self.sequence[:-1]] *)
Definition last_item (sequence : list Translator) : res Translator :=
  match List.last (map Some sequence) None with
  | Some t => Ok t
  | None => Raise IndexError
  end.

(** [translator.prepend(other)] and [translator.append(other)].  The two
    methods call each other across classes; [depth] bounds the nesting of
    these calls (three levels are the most the classes produce, see
    [prepend_depth] and [append_depth]). *)
Fixpoint prepend_at (depth : nat) (self translator : Translator) {struct depth}
  : res Translator :=
  match depth with
  | O => Raise RecursionError
  | S depth' =>
      match self with
      | TranslatorBySequence sequence =>
          match translator with
          | NullTranslator => Ok translator
          | TranslatorBySequence other => new_sequence (other ++ sequence)
          | _ =>
              match sequence with
              | [] => Raise IndexError
              | head :: rest =>
                  if TAG_eqb (tag translator) (tag head) then
                    let* new_translator := prepend_at depth' head translator in
                    if TAG_eqb (tag new_translator) (tag translator)
                    then new_sequence ([new_translator] ++ rest)
                    else new_sequence [translator; self]
                  else new_sequence [translator; self]
              end
          end
      | TranslatorByDict _ _ =>
          match translator with
          | NullTranslator => Ok translator
          | TranslatorBySequence _ => append_at depth' translator self
          | _ => new_sequence [translator; self]
          end
      | TranslatorByRegex tuples =>
          match translator with
          | NullTranslator => Ok translator
          | TranslatorByRegex other => new_regex (other ++ tuples)
          | TranslatorBySequence _ => append_at depth' translator self
          | _ => new_sequence [translator; self]
          end
      | NullTranslator => Ok translator
      | SelfTranslator =>
          match translator with
          | SelfTranslator => Ok self
          | NullTranslator => Ok self
          | TranslatorBySequence _ => append_at depth' translator self
          | _ => new_sequence [translator; self]
          end
      end
  end
with append_at (depth : nat) (self translator : Translator) {struct depth}
  : res Translator :=
  match depth with
  | O => Raise RecursionError
  | S depth' =>
      match self with
      | TranslatorBySequence sequence =>
          match translator with
          | NullTranslator => Ok translator
          | TranslatorBySequence other => new_sequence (sequence ++ other)
          | _ =>
              let* tail := last_item sequence in
              if TAG_eqb (tag translator) (tag tail) then
                let* new_translator := append_at depth' tail translator in
                if TAG_eqb (tag new_translator) (tag translator)
                then new_sequence (removelast sequence ++ [new_translator])
                else new_sequence [self; translator]
              else new_sequence [self; translator]
          end
      | TranslatorByDict _ _ =>
          match translator with
          | NullTranslator => Ok translator
          | TranslatorBySequence _ => prepend_at depth' translator self
          | _ => new_sequence [self; translator]
          end
      | TranslatorByRegex tuples =>
          match translator with
          | NullTranslator => Ok translator
          | TranslatorByRegex other => new_regex (tuples ++ other)
          | TranslatorBySequence _ => prepend_at depth' translator self
          | _ => new_sequence [self; translator]
          end
      | NullTranslator => Ok translator
      | SelfTranslator =>
          match translator with
          | SelfTranslator => Ok self
          | NullTranslator => Ok self
          | TranslatorBySequence _ => prepend_at depth' translator self
          | _ => new_sequence [self; translator]
          end
      end
  end.

Definition prepend (self translator : Translator) : res Translator :=
  prepend_at 3 self translator.

Definition append (self translator : Translator) : res Translator :=
  append_at 3 self translator.

End Translators.

(** ** A concrete [re.compile] for a fragment of the pattern syntax

    Literals, [.], the classes [\w \d \s] and their negations, escaped
    punctuation, capturing groups, alternation, the quantifiers [* + ?]
    (greedy and non-greedy) over bodies that cannot match the empty
    string, and the anchors [^ $]; flags 0 and [re.IGNORECASE].
    Everything else is refused with [NotModelled]. *)
Module PyRe.

Inductive cls : Type := CWord | CDigit | CSpace.

Inductive regex : Type :=
  | REmpty
  | RChar (c : ascii)
  | RAny
  | RClass (negated : bool) (k : cls)
  | RSeq (a b : regex)
  | RAlt (a b : regex)
  | RStar (greedy : bool) (a : regex)
  | RGroup (i : nat) (a : regex)
  | RBol
  | REol.

Definition in_cls (k : cls) (c : ascii) : bool :=
  match k with
  | CWord => is_letter c || is_digit c || is_char c "_"
  | CDigit => is_digit c
  | CSpace =>
      let n := nat_of_ascii c in
      (n =? 32)%nat || ((9 <=? n)%nat && (n <=? 13)%nat)
  end.

Fixpoint nullable (r : regex) : bool :=
  match r with
  | REmpty | RStar _ _ | RBol | REol => true
  | RChar _ | RAny | RClass _ _ => false
  | RSeq a b => nullable a && nullable b
  | RAlt a b => nullable a || nullable b
  | RGroup _ a => nullable a
  end.

(** The matcher's position: characters consumed, text left, groups. *)
Record mstate : Type := mkState {
  ms_pos : nat;
  ms_rest : string;
  ms_groups : list (option string)
}.

Definition eat (st : mstate) (p : ascii -> bool) : option mstate :=
  match ms_rest st with
  | String c rest =>
      if p c then Some (mkState (S (ms_pos st)) rest (ms_groups st)) else None
  | EmptyString => None
  end.

Definition or_else {A : Type} (x : option A) (y : unit -> option A) : option A :=
  match x with
  | Some a => Some a
  | None => y tt
  end.

(** Backtracking matcher in continuation-passing style: [k] is what must
    still match after [r]. *)
Fixpoint run (icase : bool) (r : regex) (st : mstate)
  (k : mstate -> option mstate) {struct r} : option mstate :=
  match r with
  | REmpty => k st
  | RChar c =>
      let same (d : ascii) :=
        if icase then is_char (lower_char c) (lower_char d) else is_char c d in
      match eat st same with Some st' => k st' | None => None end
  | RAny =>
      match eat st (fun d => negb (is_char d newline)) with
      | Some st' => k st'
      | None => None
      end
  | RClass negated c =>
      match eat st (fun d => xorb negated (in_cls c d)) with
      | Some st' => k st'
      | None => None
      end
  | RSeq a b => run icase a st (fun st' => run icase b st' k)
  | RAlt a b => or_else (run icase a st k) (fun _ => run icase b st k)
  | RStar greedy a =>
      (fix loop (n : nat) (st : mstate) {struct n} : option mstate :=
         match n with
         | O => k st
         | S n' =>
             let again (_ : unit) :=
               run icase a st (fun st' =>
                 if (ms_pos st <? ms_pos st')%nat then loop n' st' else None) in
             if greedy then or_else (again tt) (fun _ => k st)
             else or_else (k st) again
         end) (S (String.length (ms_rest st))) st
  | RGroup i a =>
      run icase a st (fun st' =>
        let text := String.substring 0 (ms_pos st' - ms_pos st) (ms_rest st) in
        k (mkState (ms_pos st') (ms_rest st') (<[i := Some text]> (ms_groups st'))))
  | RBol => if (ms_pos st =? 0)%nat then k st else None
  | REol =>
      if String.eqb (ms_rest st) "" || String.eqb (ms_rest st) (String newline "")
      then k st else None
  end.

Definition is_quantifier (c : ascii) : bool :=
  is_char c "*" || is_char c "+" || is_char c "?".

(** The atom [a] under the quantifier that starts [s], if there is one. *)
Definition quantified (a : regex) (s : string) : res (regex * string) :=
  match s with
  | String q s1 =>
      if is_quantifier q then
        let '(greedy, s2) :=
          match s1 with
          | String l s2 => if is_char l "?" then (false, s2) else (true, s1)
          | EmptyString => (true, s1)
          end in
        let stacked :=
          match s2 with String x _ => is_quantifier x | EmptyString => false end in
        if stacked || nullable a then Raise NotModelled
        else if is_char q "*" then Ok (RStar greedy a, s2)
        else if is_char q "+" then Ok (RSeq a (RStar greedy a), s2)
        else if greedy then Ok (RAlt a REmpty, s2)
        else Ok (RAlt REmpty a, s2)
      else Ok (a, s)
  | EmptyString => Ok (a, s)
  end.

(** An escape sequence of the pattern syntax. *)
Definition escaped (c : ascii) : res regex :=
  if is_char c "w" then Ok (RClass false CWord)
  else if is_char c "W" then Ok (RClass true CWord)
  else if is_char c "d" then Ok (RClass false CDigit)
  else if is_char c "D" then Ok (RClass true CDigit)
  else if is_char c "s" then Ok (RClass false CSpace)
  else if is_char c "S" then Ok (RClass true CSpace)
  else if is_letter c || is_digit c then Raise NotModelled
  else Ok (RChar c).

(** Recursive descent; [g] counts the groups opened so far. *)
Fixpoint parse_alt (n : nat) (s : string) (g : nat) {struct n}
  : res (regex * string * nat) :=
  match n with
  | O => Raise RecursionError
  | S n' =>
      let* lhs := parse_seq n' s g in
      let '(a, s1, g1) := lhs in
      match s1 with
      | String c s2 =>
          if is_char c "|" then
            let* rhs := parse_alt n' s2 g1 in
            let '(b, s3, g3) := rhs in
            Ok (RAlt a b, s3, g3)
          else Ok (a, s1, g1)
      | EmptyString => Ok (a, s1, g1)
      end
  end
with parse_seq (n : nat) (s : string) (g : nat) {struct n}
  : res (regex * string * nat) :=
  match n with
  | O => Raise RecursionError
  | S n' =>
      match s with
      | EmptyString => Ok (REmpty, s, g)
      | String c _ =>
          if is_char c "|" || is_char c ")" then Ok (REmpty, s, g)
          else
            let* hd := parse_atom n' s g in
            let '(a, s1, g1) := hd in
            let* tl := parse_seq n' s1 g1 in
            let '(b, s2, g2) := tl in
            Ok (RSeq a b, s2, g2)
      end
  end
with parse_atom (n : nat) (s : string) (g : nat) {struct n}
  : res (regex * string * nat) :=
  match n with
  | O => Raise RecursionError
  | S n' =>
      match s with
      | EmptyString => Raise ReError
      | String c s' =>
          let* atom :=
            if is_char c "(" then
              match s' with
              | String x _ =>
                  if is_char x "?" then Raise NotModelled
                  else
                    let* inner := parse_alt n' s' (S g) in
                    let '(a, s1, g1) := inner in
                    match s1 with
                    | String y s2 =>
                        if is_char y ")" then Ok (RGroup (S g) a, s2, g1)
                        else Raise ReError
                    | EmptyString => Raise ReError
                    end
              | EmptyString => Raise ReError
              end
            else if is_char c "\" then
              match s' with
              | String x s1 => let* a := escaped x in Ok (a, s1, g)
              | EmptyString => Raise ReError
              end
            else if is_char c "." then Ok (RAny, s', g)
            else if is_char c "^" then Ok (RBol, s', g)
            else if is_char c "$" then Ok (REol, s', g)
            else if is_quantifier c then Raise ReError
            else if is_char c "[" || is_char c "{" then Raise NotModelled
            else Ok (RChar c, s', g) in
          let '(a, s1, g1) := atom in
          let* q := quantified a s1 in
          Ok (fst q, snd q, g1)
      end
  end.

Definition IGNORECASE : Z := 2.

(** [regex.match(string)] for the parsed pattern [r] with [g] groups. *)
Definition match_ (icase : bool) (r : regex) (g : nat) (s : string)
  : option MatchObj :=
  match run icase r (mkState 0 s (replicate (S g) None)) Some with
  | Some st =>
      Some (mkMatch
              (<[0%nat := Some (String.substring 0 (ms_pos st) s)]> (ms_groups st))
              [])
  | None => None
  end.

(** [re.compile(source, flags)] *)
Definition compile (source : string) (fl : Z) : res Pattern :=
  if negb (Z.eqb fl 0 || Z.eqb fl IGNORECASE) then Raise NotModelled
  else
    let* parsed := parse_alt (4 * String.length source + 8) source 0 in
    let '(r, rest, g) := parsed in
    match rest with
    | EmptyString => Ok (mkPattern source fl (match_ (Z.eqb fl IGNORECASE) r g))
    | String _ _ => Raise ReError
    end.

(** [regex.match(string)] on the outcome of a compilation. *)
Definition matches (p : res Pattern) (s : string) : res (option (list (option string))) :=
  let* p := p in Ok (option_map mo_groups (pat_match p s)).

End PyRe.

(** An evaluator for the examples: it knows no expression at all. *)
Definition no_eval (d : string) : res value := Raise (EvalError d).


(** ** The restricted in-line lookup of the specification *)








(** ** The case directives as the specification words them *)

(** The loop of [_fix_case] started in the mode [change], with the mode
    it ends in. *)
Definition fix_case_run {str_methods : StrMethods}
  (change : case_mode) (str : string) : string * case_mode :=
  let parts := str_split "#" str in
  let '(newparts, change', _) := fold_left fix_case_step parts ([], change, false) in
  (str_join newparts, change').

(** The mode carried over from one item of the replacement list to the
    next, never reset. *)
Fixpoint carried_fix_case {str_methods : StrMethods}
  (change : case_mode) (items : list string) : list string :=
  match items with
  | [] => []
  | item :: rest =>
      let '(fixed, change') := fix_case_run change item in
      fixed :: carried_fix_case change' rest
  end.

(** The name of a mode between its two hash signs. *)
Definition marker_text (m : case_mode) : string :=
  match m with
  | MIXED => "#MIXED#"
  | UPPER => "#UPPER#"
  | LOWER => "#LOWER#"
  end.

(** A replacement text laid out as a first stretch of text followed by
    markers, each with the text after it. *)
Fixpoint render (segments : list (case_mode * string)) : string :=
  match segments with
  | [] => EmptyString
  | (m, text) :: rest => marker_text m +:+ text +:+ render rest
  end.

(** No part of [text] between two hash signs is the name of a mode. *)
Definition marker_free (text : string) : bool :=
  forallb (fun part => match marker part with None => true | Some _ => false end)
    (str_split "#" text).

(** ['#'.join(parts)] *)
Fixpoint join_hash (parts : list string) : string :=
  match parts with
  | [] => EmptyString
  | [p] => p
  | p :: ps => p +:+ String "#" (join_hash ps)
  end.

(** The text after a marker in the case the marker asks for:
    [_fix_case] converts it part by part between its hash signs, which
    stay. *)
Definition converted {str_methods : StrMethods} (m : case_mode) (text : string)
  : string :=
  join_hash (map (apply_case m) (str_split "#" text)).

(** The stretches of text of the segments, each in the case its marker
    asks for. *)
Fixpoint cased {str_methods : StrMethods} (segments : list (case_mode * string))
  : string :=
  match segments with
  | [] => EmptyString
  | (m, text) :: rest => converted m text +:+ cased rest
  end.

(** What the ASCII conversions do to one character. *)
Definition case_char (change : case_mode) : ascii -> ascii :=
  match change with
  | UPPER => upper_char
  | LOWER => lower_char
  | MIXED => fun c => c
  end.

Definition mode_name (m : case_mode) : string :=
  match m with
  | MIXED => "MIXED"
  | UPPER => "UPPER"
  | LOWER => "LOWER"
  end.

(** The parts that [split('#')] cuts the segments into. *)
Fixpoint segment_parts (segments : list (case_mode * string)) : list string :=
  match segments with
  | [] => []
  | (m, text) :: rest => mode_name m :: str_split "#" text ++ segment_parts rest
  end.

(** ** The claims of the specification, as propositions *)

(** Absorption as the specification states it. *)
Definition absorption (rc : string -> Z -> res Pattern) (T : Translator) : Prop :=
  append rc NullTranslator T = Ok NullTranslator /\
  prepend rc NullTranslator T = Ok NullTranslator /\
  append rc T NullTranslator = Ok NullTranslator /\
  prepend rc T NullTranslator = Ok NullTranslator.

(** Same-kind merge as the specification states it: the result has the
    kind of its two arguments. *)
Definition same_kind_merge (rc : string -> Z -> res Pattern) (A B : Translator) : Prop :=
  exists R, append rc A B = Ok R /\ tag R = tag A.

(** De-duplication as the specification states it. *)
Definition deduplicated {str_methods : StrMethods}
  (ev : string -> res value) (t : Translator)
  (strings : strings_arg) (strings_first : bool) : Prop :=
  forall v, all ev t strings strings_first = Ok v ->
  exists l, py_iter v = Ok l /\ NoDup l.

(** An empty child list is rejected by the constructor. *)
Definition empty_sequence_rejected : Prop :=
  exists e, TranslatorBySequence_init [] = Raise e.


(** The case mode is carried from one item of the replacement list to the
    next. *)

(** ** Translators and patterns of the test-suite *)

Definition dict_of (entries : list (string * value)) : gmap string value :=
  list_to_map entries.

Definition D1 : Translator :=
  TranslatorByDict (dict_of [("a", VStr "1"); ("b", VStr "2")]) None.
Definition D2 : Translator :=
  TranslatorByDict (dict_of [("a", VStr "3"); ("b", VStr "4")]) None.
Definition D1a : Translator := TranslatorByDict (dict_of [("a", VStr "1")]) None.
Definition D2a : Translator := TranslatorByDict (dict_of [("a", VStr "3")]) None.

(** [re.compile(r'^(\w+)$')], the pattern of the tests of [expand]. *)
Definition word_pattern : res Pattern := PyRe.compile "^(\w+)$" 0.

(** [re.compile(r'(?s).*')], a pattern that matches every string. *)
Definition any_pattern : Pattern :=
  mkPattern "(?s).*" 48 (fun s => Some (mkMatch [Some s] [])).

(** [TranslatorByRegex.expand] on the outcome of a compilation. *)
Definition expand_with {str_methods : StrMethods}
  (ev : string -> res value) (regex : res Pattern)
  (str : string) (replacements : value) : res (list value) :=
  let* p := regex in expand ev p str replacements.

(** The case mode is carried from one item of the replacement list to the
    next. *)
Definition case_mode_carried {str_methods : StrMethods}
  (ev : string -> res value) (regex : res Pattern)
  (str : string) (items : list string) : Prop :=
  expand_with ev regex str (VList (map VStr items))
  = Ok (map VStr (carried_fix_case MIXED items)).

(** Build a pattern translator from [rules] with [PyRe.compile] and ask it
    for the first translation of [str]. *)
Definition regex_first {str_methods : StrMethods}
  (ev : string -> res value) (rules : list rule) (str : string)
  : res (option value) :=
  let* t := TranslatorByRegex_init PyRe.compile rules in first ev t (Str str) false.

(** Full-string matching of a rule given as the pattern string [s], as
    the claim states it: the rule translates a string only if the whole
    string is in [lang], the language of [s]. *)
Definition matches_fully_only {str_methods : StrMethods}
  (s : string) (lang : string -> Prop) : Prop :=
  forall v str r,
    regex_first no_eval [Rule2S s v] str = Ok (Some r) -> lang str.



(** ** The remaining methods: operators, [keys], [values], the
    dictionary constructor *)

(** [Translator.__add__] and [Translator.__iadd__] *)
Definition add (rc : string -> Z -> res Pattern) (self other : Translator)
  : res Translator := append rc self other.

Definition iadd (rc : string -> Z -> res Pattern) (self other : Translator)
  : res Translator := append rc self other.

(** The argument of [TranslatorByDict]: a dictionary or something else. *)
Inductive dict_arg : Type :=
  | ArgDict (d : gmap string value)
  | ArgOther (o : pyobj).

(** [TranslatorByDict.__init__(arg, path_translator)] *)
Definition TranslatorByDict_init (arg : dict_arg) (path_translator : option Translator)
  : res Translator :=
  match arg with
  | ArgDict d => Ok (TranslatorByDict d path_translator)
  | ArgOther _ => Raise AssertionError
  end.

(** What [keys()] lists: strings, compiled patterns, and the lists that a
    sequence makes of the keys of its children. *)
Inductive pykey : Type :=
  | KStr (s : string)
  | KPat (p : Pattern)
  | KList (l : list pykey).

(** [keylist.sort()] on strings, by insertion. *)
Fixpoint insert_sorted (k : string) (l : list string) : list string :=
  match l with
  | [] => [k]
  | x :: l' => if String.leb k x then k :: l else x :: insert_sorted k l'
  end.

Definition sort_strings (l : list string) : list string :=
  fold_right insert_sorted [] l.

(** The order of strings, as propositions. *)
Definition leb_rel (a b : string) : Prop := String.leb a b = true.
Definition ltb_rel (a b : string) : Prop := String.ltb a b = true.

(** [TranslatorByDict.keys]: [list(self.dict.keys())], sorted. *)
Definition dict_keys (dict : gmap string value) : list string :=
  sort_strings (map fst (map_to_list dict)).

Section OptionList.
Context {A B : Type}.
Variable f : A -> option B.

(** [[f(x) for x in xs]], where [f] may fail. *)
Fixpoint collect (xs : list A) : option (list B) :=
  match xs with
  | [] => Some []
  | x :: xs' =>
      match f x, collect xs' with
      | Some y, Some ys => Some (y :: ys)
      | _, _ => None
      end
  end.
End OptionList.

(** [translator.keys()] *)
Fixpoint keys (self : Translator) : list pykey :=
  match self with
  | TranslatorBySequence sequence => map (fun t => KList (keys t)) sequence
  | TranslatorByDict dict _ => map KStr (dict_keys dict)
  | TranslatorByRegex tuples => map (fun t => KPat (fst t)) tuples
  | NullTranslator => []
  | SelfTranslator => []
  end.

(** [translator.values()]; [None] stands for the [KeyError] of a failed
    [self.dict[k]]. *)
Fixpoint values (self : Translator) : option (list value) :=
  match self with
  | TranslatorBySequence sequence =>
      collect (fun t => option_map VList (values t)) sequence
  | TranslatorByDict dict _ => collect (fun k => dict !! k) (dict_keys dict)
  | TranslatorByRegex tuples => Some (map snd tuples)
  | NullTranslator => Some []
  | SelfTranslator => Some []
  end.


(** A translator made of dictionaries without path translators, null and
    identity translators, and sequences of such. *)
Fixpoint plain (t : Translator) : bool :=
  match t with
  | TranslatorBySequence sequence => forallb plain sequence
  | TranslatorByDict _ None => true
  | TranslatorByDict _ (Some _) => false
  | TranslatorByRegex _ => false
  | NullTranslator | SelfTranslator => true
  end.

(** An empty [TranslatorBySequence]. *)
Definition empty_sequence (t : Translator) : bool :=
  match t with
  | TranslatorBySequence [] => true
  | _ => false
  end.

(** The items of [xs] that are neither in [seen] nor a repetition, in the
    order of their first occurrence. *)
Fixpoint fresh (seen xs : list value) : list value :=
  match xs with
  | [] => []
  | x :: xs' =>
      if value_in x seen then fresh seen xs'
      else x :: fresh (seen ++ [x]) xs'
  end.

(** No character of [s] is [c]. *)
Fixpoint without_char (c : ascii) (s : string) : bool :=
  match s with
  | EmptyString => true
  | String d s' => negb (is_char d c) && without_char c s'
  end.

(** The items of [xs] in the order of their first occurrence, each once:
    an item stays where it stands first, and its repetitions are
    dropped. *)
Fixpoint first_occurrences (xs : list value) : list value :=
  match xs with
  | [] => []
  | x :: xs' =>
      x :: List.filter (fun y => negb (value_eqb x y)) (first_occurrences xs')
  end.

Section Gather.
Context {A : Type}.
Variable g : A -> res (list value).

(** The items that [g] yields for the elements of [xs], one after the
    other, up to the first exception. *)
Fixpoint gather (xs : list A) : res (list value) :=
  match xs with
  | [] => Ok []
  | x :: xs' =>
      let* items := g x in
      let* rest := gather xs' in
      Ok (items ++ rest)
  end.
End Gather.

(** The items that a child of a sequence contributes when the sequence is
    asked with [strings_first=False]. *)
Definition child_items {str_methods : StrMethods}
  (ev : string -> res value) (strings : list string)
  (t : Translator) : res (list value) :=
  let* partial_results := all ev t (Strs strings) false in
  if truthy partial_results then py_iter partial_results else Ok [].

(** The items of one key of a dictionary translator. *)
Definition key_items (dict : gmap string value) (key : value) : res (list value) :=
  let* found := dict_find dict key in
  Ok (match found with
      | Some (k, result) => dict_expand result k
      | None => []
      end).

(** Two lists of items that merge alike into any results. *)
Definition same_items (x y : list value) : Prop :=
  forall acc, extend_new acc x = extend_new acc y.

(** [if not isinstance(replacements, list): replacements = [replacements]] *)
Definition as_replacements (replacements : value) : list value :=
  match replacements with
  | VList l => l
  | _ => [replacements]
  end.




(** What a pattern translator looks for in one rule and one string: the
    first item of the expansion, if it has one. *)
Definition rule_first {str_methods : StrMethods}
  (ev : string -> res value) (t : Pattern * value) (str : string)
  : res (option value) :=
  let* expanded := expand ev (fst t) str (snd t) in
  match expanded with
  | x :: _ => Ok (Some x)
  | [] => Ok None
  end.


(** An element of a tuple and what [expand] makes of it: a string stays a
    string, anything else stays what it is. *)
Definition element_shape (item out : value) : Prop :=
  match item with
  | VStr _ => exists s, out = VStr s
  | _ => out = item
  end.

(** A replacement and what [expand] makes of it: a string gives a string,
    a tuple a tuple of the same length, element by element, and anything
    else is passed on. *)
Definition replacement_shape (replacement out : value) : Prop :=
  match replacement with
  | VStr _ => exists s, out = VStr s
  | VTuple t => exists t', out = VTuple t' /\ Forall2 element_shape t t'
  | _ => out = replacement
  end.

(** The replacement of a rule, and the pattern that the constructor
    stores for it. *)
Definition rule_replacement (r : rule) : value :=
  match r with
  | Rule2S _ v | Rule2C _ v | Rule3 _ _ v => v
  end.

Definition rule_pattern (rc : string -> Z -> res Pattern) (r : rule) : res Pattern :=
  match r with
  | Rule2S s _ => rc ("^" +:+ s +:+ "$") 0%Z
  | Rule2C p _ => Ok p
  | Rule3 s f _ => rc ("^" +:+ s +:+ "$") f
  end.

(** The expansions of one rule over all the strings. *)
Definition rule_items {str_methods : StrMethods}
  (ev : string -> res value) (strings : list string)
  (t : Pattern * value) : res (list value) :=
  gather (fun str => expand ev (fst t) str (snd t)) strings.

(** The expansions of all the rules over one string. *)
Definition string_items {str_methods : StrMethods}
  (ev : string -> res value) (tuples : list (Pattern * value))
  (str : string) : res (list value) :=
  gather (fun t => expand ev (fst t) str (snd t)) tuples.

(** The items that [all] comes across, in the order in which its loops
    visit them, repetitions included: a sequence iterates over what each
    child returns (when that is true), a dictionary over the expansion of
    each key it finds, a pattern translator over the expansion of each
    rule on each string. *)
Definition visited {str_methods : StrMethods}
  (ev : string -> res value) (t : Translator)
  (strings : strings_arg) (strings_first : bool) : res (list value) :=
  match t with
  | TranslatorBySequence sequence =>
      if strings_first then
        gather (fun str =>
                  gather (fun t =>
                            let* p := all ev t (Str str) false in
                            if truthy p then py_iter p else Ok []) sequence)
          (as_list strings)
      else gather (child_items ev (as_list strings)) sequence
  | TranslatorByDict dict path_translator =>
      let* keys :=
        match path_translator with
        | None => Ok (map VStr (as_list strings))
        | Some pt => let* ks := all ev pt (Strs (as_list strings)) false in py_iter ks
        end in
      gather (key_items dict) keys
  | TranslatorByRegex tuples =>
      if strings_first then gather (string_items ev tuples) (as_list strings)
      else gather (rule_items ev (as_list strings)) tuples
  | NullTranslator => Ok []
  | SelfTranslator => py_iter (as_value strings)
  end.

(** ** Texts laid out in plain stretches and in-line expressions *)












(** * Properties *)

(** ** Constructors called by the methods *)

Lemma as_translators_map (ts : list Translator) :
  as_translators (map PTranslator ts) = Ok ts.
Proof.
  induction ts as [|t ts IH]; simpl; [reflexivity|].
  rewrite IH. reflexivity.
Qed.

Lemma new_sequence_ok (ts : list Translator) :
  new_sequence ts = Ok (TranslatorBySequence ts).
Proof.
  unfold new_sequence, TranslatorBySequence_init.
  rewrite as_translators_map. reflexivity.
Qed.

Lemma init_compiled_from rc (tuples acc : list (Pattern * value)) :
  for_each (fun compiled_tuples items =>
      match items with
      | Rule2S s v =>
          let* regex := rc ("^" +:+ s +:+ "$") 0%Z in
          Ok (compiled_tuples ++ [(regex, v)])
      | Rule2C p v => Ok (compiled_tuples ++ [(p, v)])
      | Rule3 s f v =>
          let* regex := rc ("^" +:+ s +:+ "$") f in
          Ok (compiled_tuples ++ [(regex, v)])
      end) acc (map (fun t => Rule2C (fst t) (snd t)) tuples)
  = Ok (acc ++ tuples).
Proof.
  revert acc. induction tuples as [|[p v] tuples IH]; intros acc; simpl.
  - rewrite app_nil_r. reflexivity.
  - rewrite IH, <- app_assoc. reflexivity.
Qed.

Lemma new_regex_ok rc (tuples : list (Pattern * value)) :
  new_regex rc tuples = Ok (TranslatorByRegex tuples).
Proof.
  unfold new_regex, TranslatorByRegex_init.
  rewrite init_compiled_from. reflexivity.
Qed.

(** ** The depth bound of [prepend] and [append] is enough *)

Lemma TAG_eqb_eq (a b : TAG) : TAG_eqb a b = true <-> a = b.
Proof. destruct a, b; simpl; split; congruence. Qed.

(** Between two translators that are not sequences, one level is all a
    merge needs. *)
Lemma leaf_merge_depth rc (n : nat) (a b : Translator) :
  tag a <> SEQUENCE -> tag b <> SEQUENCE ->
  prepend_at rc (S n) a b = prepend_at rc 1 a b /\
  append_at rc (S n) a b = append_at rc 1 a b.
Proof.
  intros Ha Hb.
  destruct a; try (exfalso; apply Ha; reflexivity);
    destruct b; try (exfalso; apply Hb; reflexivity); split; reflexivity.
Qed.

(** The last branch of [TranslatorBySequence.append], taken for an
    argument that is neither a sequence nor the null translator. *)
Lemma append_at_sequence rc (n : nat) (sequence : list Translator) (b : Translator) :
  tag b <> SEQUENCE -> tag b <> NULL ->
  append_at rc (S n) (TranslatorBySequence sequence) b =
  let* tail := last_item sequence in
  if TAG_eqb (tag b) (tag tail) then
    let* new_translator := append_at rc n tail b in
    if TAG_eqb (tag new_translator) (tag b)
    then new_sequence (removelast sequence ++ [new_translator])
    else new_sequence [TranslatorBySequence sequence; b]
  else new_sequence [TranslatorBySequence sequence; b].
Proof.
  intros Hs Hn.
  destruct b; try (exfalso; apply Hs; reflexivity);
    try (exfalso; apply Hn; reflexivity); reflexivity.
Qed.

(** A sequence merges with a translator that is not one in two levels. *)
Lemma sequence_merge_depth rc (n : nat) (sequence : list Translator) (b : Translator) :
  tag b <> SEQUENCE ->
  prepend_at rc (S (S n)) (TranslatorBySequence sequence) b
    = prepend_at rc 2 (TranslatorBySequence sequence) b /\
  append_at rc (S (S n)) (TranslatorBySequence sequence) b
    = append_at rc 2 (TranslatorBySequence sequence) b.
Proof.
  intros Hb. split.
  - destruct b; try (exfalso; apply Hb; reflexivity); try reflexivity;
      (destruct sequence as [|head rest]; [reflexivity|];
       destruct head; reflexivity).
  - destruct (TAG_eqb (tag b) NULL) eqn:En.
    + apply TAG_eqb_eq in En. destruct b; try discriminate En. reflexivity.
    + assert (Hn : tag b <> NULL)
        by (intros E; apply TAG_eqb_eq in E; congruence).
      rewrite !append_at_sequence by assumption.
      destruct (last_item sequence) as [tail|e]; [|reflexivity].
      cbn [res_bind].
      destruct (TAG_eqb (tag b) (tag tail)) eqn:E; [|reflexivity].
      apply TAG_eqb_eq in E.
      assert (Hh : tag tail <> SEQUENCE) by (rewrite <- E; exact Hb).
      rewrite (proj2 (leaf_merge_depth rc n tail b Hh Hb)). reflexivity.
Qed.

(** More than three levels change nothing. *)
Lemma prepend_depth rc (n : nat) (a b : Translator) :
  prepend_at rc (3 + n) a b = prepend rc a b.
Proof.
  unfold prepend. change (3 + n) with (S (S (S n))).
  assert (Hseq : forall sequence x, tag x <> SEQUENCE ->
            append_at rc (2 + n) (TranslatorBySequence sequence) x
            = append_at rc 2 (TranslatorBySequence sequence) x)
    by (intros sequence x Hx; apply sequence_merge_depth; exact Hx).
  destruct a as [sa|da pa|ta| |].
  - destruct (TAG_eqb (tag b) SEQUENCE) eqn:E.
    + apply TAG_eqb_eq in E. destruct b; try discriminate E. reflexivity.
    + assert (Hb : tag b <> SEQUENCE)
        by (intros H; apply TAG_eqb_eq in H; congruence).
      rewrite (proj1 (sequence_merge_depth rc (S n) sa b Hb)).
      rewrite (proj1 (sequence_merge_depth rc 1 sa b Hb)). reflexivity.
  - destruct b as [sb| | | |]; try reflexivity.
    exact (Hseq sb (TranslatorByDict da pa) ltac:(discriminate)).
  - destruct b as [sb| | | |]; try reflexivity.
    exact (Hseq sb (TranslatorByRegex ta) ltac:(discriminate)).
  - reflexivity.
  - destruct b as [sb| | | |]; try reflexivity.
    exact (Hseq sb SelfTranslator ltac:(discriminate)).
Qed.

Lemma append_depth rc (n : nat) (a b : Translator) :
  append_at rc (3 + n) a b = append rc a b.
Proof.
  unfold append. change (3 + n) with (S (S (S n))).
  assert (Hseq : forall sequence x, tag x <> SEQUENCE ->
            prepend_at rc (2 + n) (TranslatorBySequence sequence) x
            = prepend_at rc 2 (TranslatorBySequence sequence) x)
    by (intros sequence x Hx; apply sequence_merge_depth; exact Hx).
  destruct a as [sa|da pa|ta| |].
  - destruct (TAG_eqb (tag b) SEQUENCE) eqn:E.
    + apply TAG_eqb_eq in E. destruct b; try discriminate E. reflexivity.
    + assert (Hb : tag b <> SEQUENCE)
        by (intros H; apply TAG_eqb_eq in H; congruence).
      rewrite (proj2 (sequence_merge_depth rc (S n) sa b Hb)).
      rewrite (proj2 (sequence_merge_depth rc 1 sa b Hb)). reflexivity.
  - destruct b as [sb| | | |]; try reflexivity.
    exact (Hseq sb (TranslatorByDict da pa) ltac:(discriminate)).
  - destruct b as [sb| | | |]; try reflexivity.
    exact (Hseq sb (TranslatorByRegex ta) ltac:(discriminate)).
  - reflexivity.
  - destruct b as [sb| | | |]; try reflexivity.
    exact (Hseq sb SelfTranslator ltac:(discriminate)).
Qed.

(** Neither method ever gives up for want of depth. *)
Lemma merge_never_out_of_depth rc (a b : Translator) :
  prepend rc a b <> Raise RecursionError /\ append rc a b <> Raise RecursionError.
Proof.
  assert (Hleaf : forall x y, tag x <> SEQUENCE -> tag y <> SEQUENCE ->
            prepend_at rc 1 x y <> Raise RecursionError /\
            append_at rc 1 x y <> Raise RecursionError).
  { intros x y Hx Hy.
    destruct x; try (exfalso; apply Hx; reflexivity);
      destruct y; try (exfalso; apply Hy; reflexivity);
      split; cbn; rewrite ?new_sequence_ok, ?new_regex_ok; discriminate. }
  assert (Hseq : forall sequence y, tag y <> SEQUENCE ->
            prepend_at rc 2 (TranslatorBySequence sequence) y <> Raise RecursionError /\
            append_at rc 2 (TranslatorBySequence sequence) y <> Raise RecursionError).
  { intros sequence y Hy.
    destruct (TAG_eqb (tag y) NULL) eqn:En.
    { apply TAG_eqb_eq in En. destruct y; try discriminate En.
      split; discriminate. }
    assert (Hn : tag y <> NULL)
      by (intros E; apply TAG_eqb_eq in E; congruence).
    split.
    - destruct y; try (exfalso; apply Hy; reflexivity);
        try (exfalso; apply Hn; reflexivity);
        (destruct sequence as [|head rest]; [discriminate|];
         destruct head; cbn; rewrite ?new_sequence_ok, ?new_regex_ok;
         cbn; rewrite ?new_sequence_ok; discriminate).
    - rewrite append_at_sequence by assumption.
      destruct (last_item sequence) as [tail|e] eqn:El;
        [|cbn; unfold last_item in El; destruct (List.last _ _);
          [discriminate El|injection El as <-; discriminate]].
      cbn [res_bind].
      destruct (TAG_eqb (tag y) (tag tail)) eqn:E;
        [|rewrite new_sequence_ok; discriminate].
      apply TAG_eqb_eq in E.
      assert (Hh : tag tail <> SEQUENCE) by (rewrite <- E; exact Hy).
      destruct (append_at rc 1 tail y) as [r|e] eqn:Er.
      + cbn [res_bind]. destruct (TAG_eqb (tag r) (tag y));
          rewrite new_sequence_ok; discriminate.
      + cbn [res_bind]. intros H. injection H as ->.
        apply (proj2 (Hleaf tail y Hh Hy)). exact Er. }
  unfold prepend, append.
  destruct a as [sa|da pa|ta| |].
  - destruct (TAG_eqb (tag b) SEQUENCE) eqn:E.
    + apply TAG_eqb_eq in E. destruct b; try discriminate E.
      split; cbn; rewrite new_sequence_ok; discriminate.
    + assert (Hb : tag b <> SEQUENCE)
        by (intros H; apply TAG_eqb_eq in H; congruence).
      rewrite (proj1 (sequence_merge_depth rc 1 sa b Hb)).
      rewrite (proj2 (sequence_merge_depth rc 1 sa b Hb)).
      apply Hseq. exact Hb.
  - destruct b as [sb| | | |];
      try (split; cbn; rewrite ?new_sequence_ok; discriminate).
    split; [apply (Hseq sb (TranslatorByDict da pa))
           |apply (Hseq sb (TranslatorByDict da pa))]; discriminate.
  - destruct b as [sb| | | |];
      try (split; cbn; rewrite ?new_sequence_ok, ?new_regex_ok; discriminate).
    split; [apply (Hseq sb (TranslatorByRegex ta))
           |apply (Hseq sb (TranslatorByRegex ta))]; discriminate.
  - split; destruct b; discriminate.
  - destruct b as [sb| | | |];
      try (split; cbn; rewrite ?new_sequence_ok; discriminate).
    split; [apply (Hseq sb SelfTranslator)
           |apply (Hseq sb SelfTranslator)]; discriminate.
Qed.

(** ** Composition with the null translator (C1) *)

(** C1, as stated, fails: [NullTranslator.append] returns its argument,
    so the null translator followed by the identity translator is the
    identity translator, not the null one. *)
Lemma C1_absorption_fails : ~ absorption PyRe.compile SelfTranslator.
Proof. intros [H _]. discriminate H. Qed.

(** C1, amended: [NullTranslator.append(T)] and [NullTranslator.prepend(T)]
    return [T] itself; [T.append(NullTranslator)] and
    [T.prepend(NullTranslator)] return the null translator for every [T]
    but the identity translator, which returns itself. *)
Theorem C1_null_composition rc (T : Translator) :
  append rc NullTranslator T = Ok T /\
  prepend rc NullTranslator T = Ok T /\
  append rc T NullTranslator
    = Ok (if TAG_eqb (tag T) SELF then SelfTranslator else NullTranslator) /\
  prepend rc T NullTranslator
    = Ok (if TAG_eqb (tag T) SELF then SelfTranslator else NullTranslator).
Proof. destruct T; repeat split; reflexivity. Qed.

(** ** Merging translators of the same class (C2) *)

(** C2, as stated, fails for two dictionary translators: the result is a
    sequence of the two, whose tag is not theirs. *)
Lemma C2_dict_merge_fails : ~ same_kind_merge PyRe.compile D1a D2a.
Proof.
  intros [R [H Ht]]. unfold append in H. cbn in H.
  injection H as <-. discriminate Ht.
Qed.

(** C2, amended: two pattern translators merge into one pattern translator
    and two sequences into one sequence, the entries of [A] first for
    [append] and last for [prepend]; two dictionary translators are not
    merged but wrapped in a sequence of two. *)
Theorem C2_same_kind_merge rc :
  (forall a b : list (Pattern * value),
     append rc (TranslatorByRegex a) (TranslatorByRegex b)
       = Ok (TranslatorByRegex (a ++ b)) /\
     prepend rc (TranslatorByRegex a) (TranslatorByRegex b)
       = Ok (TranslatorByRegex (b ++ a))) /\
  (forall a b : list Translator,
     append rc (TranslatorBySequence a) (TranslatorBySequence b)
       = Ok (TranslatorBySequence (a ++ b)) /\
     prepend rc (TranslatorBySequence a) (TranslatorBySequence b)
       = Ok (TranslatorBySequence (b ++ a))) /\
  (forall da pa db pb,
     append rc (TranslatorByDict da pa) (TranslatorByDict db pb)
       = Ok (TranslatorBySequence [TranslatorByDict da pa; TranslatorByDict db pb]) /\
     prepend rc (TranslatorByDict da pa) (TranslatorByDict db pb)
       = Ok (TranslatorBySequence [TranslatorByDict db pb; TranslatorByDict da pa])).
Proof.
  repeat split; unfold append, prepend; cbn [append_at prepend_at];
    rewrite ?new_regex_ok, ?new_sequence_ok; reflexivity.
Qed.

(** ** Constructing a sequence (C5) *)

Section SequenceConstruction.
Context {str_methods : StrMethods}.

(** C5, as stated, fails: the constructor accepts the empty list. *)
Lemma C5_empty_sequence_accepted : ~ empty_sequence_rejected.
Proof. intros [e H]. discriminate H. Qed.

Lemma as_translators_spec (args : list pyobj) :
  (exists ts, args = map PTranslator ts /\ as_translators args = Ok ts) \/
  ((exists v, In (PValue v) args) /\ as_translators args = Raise AssertionError).
Proof.
  induction args as [|[t|v] args IH].
  - left. exists []. split; reflexivity.
  - destruct IH as [[ts [-> H]]|[[v Hv] H]].
    + left. exists (t :: ts). split; [reflexivity|]. simpl. rewrite H. reflexivity.
    + right. split; [exists v; right; exact Hv|]. simpl. rewrite H. reflexivity.
  - right. split; [exists v; left; reflexivity|reflexivity].
Qed.

(** C5, amended: the constructor fails, at once and with an assertion
    error, exactly when some element of the list is not a translator;
    otherwise it stores the list as given, the empty list included, and a
    sequence without children answers [all] with the empty list and
    [first] with [None]. *)
Theorem C5_sequence_construction :
  (forall args : list pyobj,
     (exists ts, args = map PTranslator ts /\
                 TranslatorBySequence_init args = Ok (TranslatorBySequence ts)) \/
     ((exists v, In (PValue v) args) /\
      TranslatorBySequence_init args = Raise AssertionError)) /\
  TranslatorBySequence_init [] = Ok (TranslatorBySequence []) /\
  (forall ev strings strings_first,
     all ev (TranslatorBySequence []) strings strings_first = Ok (VList []) /\
     first ev (TranslatorBySequence []) strings strings_first = Ok None).
Proof.
  split; [|split].
  - intros args. unfold TranslatorBySequence_init.
    destruct (as_translators_spec args) as [[ts [-> H]]|[Hv H]]; rewrite H.
    + left. exists ts. split; reflexivity.
    + right. split; [exact Hv|reflexivity].
  - reflexivity.
  - intros ev strings sf. split.
    + cbn. destruct sf; [|reflexivity].
      assert (H : forall (l acc : list string),
                for_each (fun (results : list value) (_ : string) => Ok results)
                  [] l = Ok ([] : list value)).
      { induction l; intros; cbn; auto. }
      cbn. rewrite (H (as_list strings) []). reflexivity.
    + cbn. destruct sf; [|reflexivity].
      induction (as_list strings); cbn; auto.
Qed.

(** What the empty sequence defers: merging it with a translator that is
    neither null nor a sequence raises [IndexError]. *)
Lemma empty_sequence_merge_raises rc (d : gmap string value) :
  append rc (TranslatorBySequence []) (TranslatorByDict d None) = Raise IndexError /\
  prepend rc (TranslatorBySequence []) (TranslatorByDict d None) = Raise IndexError.
Proof. split; reflexivity. Qed.

End SequenceConstruction.

(** ** Queries that raise (C4) *)

Section QueriesThatRaise.
Context {str_methods : StrMethods}.

(** C4: [first] raises [IndexError] where its docstring promises [None]:
    on a dictionary whose value for the key is the empty list, and on the
    identity translator asked about no string at all. *)
Theorem C4_first_raises ev (strings_first : bool) :
  first ev (TranslatorByDict (dict_of [("k", VList [])]) None) (Str "k") strings_first
    = Raise IndexError /\
  first ev SelfTranslator (Strs []) strings_first = Raise IndexError /\
  first ev SelfTranslator (Str "") strings_first = Raise IndexError /\
  all ev (TranslatorByDict (dict_of [("k", VList [])]) None) (Str "k") strings_first
    = Ok (VList []).
Proof. repeat split; vm_compute; reflexivity. Qed.

End QueriesThatRaise.

(** ** Order of traversal (C9) *)

Section OrderOfTraversal.
Context {str_methods : StrMethods}.

(** C9: the sequence of the two dictionaries answers in string-major order
    with [strings_first] and in translator-major order without; with one
    key the two orders coincide. *)
Theorem C9_traversal_order ev :
  all ev (TranslatorBySequence [D1; D2]) (Strs ["a"; "b"]) true
    = Ok (VList [VStr "1"; VStr "3"; VStr "2"; VStr "4"]) /\
  all ev (TranslatorBySequence [D1; D2]) (Strs ["a"; "b"]) false
    = Ok (VList [VStr "1"; VStr "2"; VStr "3"; VStr "4"]) /\
  all ev (TranslatorBySequence [D1a; D2a]) (Strs ["a"]) true
    = Ok (VList [VStr "1"; VStr "3"]) /\
  all ev (TranslatorBySequence [D1a; D2a]) (Strs ["a"]) false
    = Ok (VList [VStr "1"; VStr "3"]).
Proof. repeat split; vm_compute; reflexivity. Qed.

End OrderOfTraversal.

(** ** De-duplication (C3) *)

Section DeDuplication.
Context {str_methods : StrMethods}.

(** Induction on values that reaches into their tuples and lists. *)
Lemma value_nested_ind (P : value -> Prop) :
  (forall s, P (VStr s)) -> (forall n, P (VInt n)) ->
  (forall items, Forall P items -> P (VTuple items)) ->
  (forall items, Forall P items -> P (VList items)) ->
  P VNone ->
  forall v, P v.
Proof.
  intros HStr HInt HTuple HList HNone.
  fix IH 1. intros [s|n|items|items|].
  - apply HStr.
  - apply HInt.
  - apply HTuple. induction items as [|x items IHitems]; constructor;
      [apply IH|exact IHitems].
  - apply HList. induction items as [|x items IHitems]; constructor;
      [apply IH|exact IHitems].
  - apply HNone.
Qed.

Lemma list_eqb_eq {A : Type} (eqb : A -> A -> bool) (l : list A) :
  Forall (fun x => forall y, eqb x y = true <-> x = y) l ->
  forall k, list_eqb eqb l k = true <-> l = k.
Proof.
  induction 1 as [|x l Hx _ IH]; intros [|y k]; simpl;
    try (split; [discriminate|discriminate]); [tauto|].
  rewrite andb_true_iff, Hx, IH. split.
  - intros [-> ->]. reflexivity.
  - intros E. injection E as -> ->. tauto.
Qed.

Lemma value_eqb_eq (a b : value) : value_eqb a b = true <-> a = b.
Proof.
  revert b. induction a as [s|n|items IH|items IH|] using value_nested_ind;
    intros [t|m|k|k|]; simpl; try (split; [discriminate|discriminate]).
  - rewrite String.eqb_eq. split; congruence.
  - rewrite Z.eqb_eq. split; congruence.
  - rewrite (list_eqb_eq value_eqb items IH). split; congruence.
  - rewrite (list_eqb_eq value_eqb items IH). split; congruence.
  - split; reflexivity.
Qed.

Lemma value_in_elem_of (item : value) (results : list value) :
  value_in item results = true <-> item ∈ results.
Proof.
  induction results as [|r rs IH]; simpl.
  - rewrite elem_of_nil. split; [discriminate|tauto].
  - rewrite orb_true_iff, value_eqb_eq, IH, elem_of_cons.
    split; intros [H|H]; auto.
Qed.

Lemma append_new_NoDup (results : list value) (item : value) :
  NoDup results -> NoDup (append_new results item).
Proof.
  intros H. unfold append_new.
  destruct (value_in item results) eqn:E; [exact H|].
  apply NoDup_app. split; [exact H|]. split; [|apply NoDup_singleton].
  intros x Hx Hin. apply list_elem_of_singleton in Hin. subst x.
  apply value_in_elem_of in Hx. congruence.
Qed.

Lemma extend_new_NoDup (items results : list value) :
  NoDup results -> NoDup (extend_new results items).
Proof.
  unfold extend_new. revert results.
  induction items as [|i items IH]; intros results H; simpl; [exact H|].
  apply IH, append_new_NoDup, H.
Qed.

(** A property of the accumulator that every round of a loop keeps holds
    when the loop ends. *)
Lemma for_each_invariant {A B : Type} (P : B -> Prop) (body : B -> A -> res B) :
  (forall acc x acc', P acc -> body acc x = Ok acc' -> P acc') ->
  forall xs acc r, P acc -> for_each body acc xs = Ok r -> P r.
Proof.
  intros Hbody. induction xs as [|x xs IH]; intros acc r Hacc H; simpl in H.
  - injection H as <-. exact Hacc.
  - destruct (body acc x) as [acc'|e] eqn:E; [|discriminate H].
    simpl in H. eapply IH; [|exact H]. eapply Hbody; eauto.
Qed.

Lemma merge_partial_NoDup (results results' : list value) (partial_results : value) :
  NoDup results -> merge_partial results partial_results = Ok results' ->
  NoDup results'.
Proof.
  intros H. unfold merge_partial.
  destruct (truthy partial_results).
  - destruct (py_iter partial_results) as [items|e]; [|discriminate].
    simpl. intros E. injection E as <-. apply extend_new_NoDup, H.
  - intros E. injection E as <-. exact H.
Qed.

Lemma res_map_Ok {A B : Type} (f : A -> B) (m : res A) (b : B) :
  res_map f m = Ok b -> exists a, m = Ok a /\ b = f a.
Proof.
  destruct m as [a|e]; simpl; [|discriminate].
  intros E. injection E as <-. exists a. split; reflexivity.
Qed.

Lemma value_eqb_refl (v : value) : value_eqb v v = true.
Proof. apply value_eqb_eq. reflexivity. Qed.

Lemma value_in_app (x : value) (l k : list value) :
  value_in x (l ++ k) = value_in x l || value_in x k.
Proof.
  induction l as [|y l IH]; simpl; [reflexivity|].
  rewrite IH, orb_assoc. reflexivity.
Qed.

Lemma extend_new_fresh (xs acc : list value) :
  extend_new acc xs = acc ++ fresh acc xs.
Proof.
  unfold extend_new. revert acc.
  induction xs as [|x xs IH]; intros acc; simpl.
  - rewrite app_nil_r. reflexivity.
  - unfold append_new at 2. destruct (value_in x acc); [apply IH|].
    rewrite IH, <- app_assoc. reflexivity.
Qed.

Lemma extend_new_app (acc xs ys : list value) :
  extend_new acc (xs ++ ys) = extend_new (extend_new acc xs) ys.
Proof. unfold extend_new. apply fold_left_app. Qed.

(** De-duplicating against a larger list what was de-duplicated against a
    smaller one is de-duplicating against the larger one. *)
Lemma fresh_fresh (xs seen acc : list value) :
  (forall x, value_in x seen = true -> value_in x acc = true) ->
  fresh acc (fresh seen xs) = fresh acc xs.
Proof.
  revert seen acc. induction xs as [|x xs IH]; intros seen acc Hsub; simpl;
    [reflexivity|].
  assert (Hgrow : forall s a y, (forall z, value_in z s = true -> value_in z a = true) ->
            value_in x a = true ->
            value_in y (s ++ [x]) = true -> value_in y a = true).
  { intros s a y Hs Hx Hy. rewrite value_in_app in Hy.
    apply orb_true_iff in Hy. destruct Hy as [Hy|Hy]; [apply Hs, Hy|].
    simpl in Hy. rewrite orb_false_r in Hy. apply value_eqb_eq in Hy.
    subst y. exact Hx. }
  destruct (value_in x seen) eqn:Es.
  - rewrite (Hsub x Es). apply IH, Hsub.
  - simpl. destruct (value_in x acc) eqn:Ea.
    + apply IH. intros y Hy. eapply Hgrow; eauto.
    + f_equal. apply IH. intros y Hy.
      rewrite value_in_app in Hy |- *. apply orb_true_iff in Hy.
      apply orb_true_iff. destruct Hy as [Hy|Hy]; [left; apply Hsub, Hy|right; exact Hy].
Qed.

(** Items that were de-duplicated on their own merge as the items
    themselves. *)
Lemma extend_new_dedupe (acc xs : list value) :
  extend_new acc (extend_new [] xs) = extend_new acc xs.
Proof.
  rewrite (extend_new_fresh xs []), !extend_new_fresh. simpl.
  rewrite fresh_fresh; [reflexivity|]. intros x Hx. discriminate Hx.
Qed.


Lemma value_in_extend_new (x : value) (xs acc : list value) :
  value_in x (extend_new acc xs) = value_in x acc || value_in x xs.
Proof.
  unfold extend_new. revert acc. induction xs as [|y xs IH]; intros acc; simpl.
  - rewrite orb_false_r. reflexivity.
  - rewrite IH. unfold append_new.
    destruct (value_in y acc) eqn:Ey.
    + destruct (value_eqb y x) eqn:Exy; simpl; [|reflexivity].
      apply value_eqb_eq in Exy. subst y. rewrite Ey. reflexivity.
    + rewrite value_in_app. simpl. rewrite orb_false_r, orb_assoc. reflexivity.
Qed.


(** The first occurrence wins: [extend_new] from the empty list keeps the
    items in the order of their first occurrence. *)
Lemma filter_filter (p q : value -> bool) (l : list value) :
  List.filter q (List.filter p l) = List.filter (fun y => p y && q y) l.
Proof.
  induction l as [|x l IH]; simpl; [reflexivity|].
  destruct (p x); simpl; [|exact IH].
  destruct (q x); [f_equal|]; exact IH.
Qed.

Lemma filter_ext_in (p q : value -> bool) (l : list value) :
  (forall y, y ∈ l -> p y = q y) -> List.filter p l = List.filter q l.
Proof.
  induction l as [|x l IH]; intros H; simpl; [reflexivity|].
  rewrite (H x) by left. rewrite IH by (intros y Hy; apply H; right; exact Hy).
  reflexivity.
Qed.

Lemma first_occurrences_filter (p : value -> bool) (xs : list value) :
  first_occurrences (List.filter p xs) = List.filter p (first_occurrences xs).
Proof.
  induction xs as [|x xs IH]; simpl; [reflexivity|].
  destruct (p x) eqn:Ep; simpl.
  - rewrite IH, !filter_filter. f_equal. apply filter_ext_in.
    intros y _. apply andb_comm.
  - rewrite IH, filter_filter. apply filter_ext_in. intros y _.
    destruct (value_eqb x y) eqn:E; simpl; [|reflexivity].
    apply value_eqb_eq in E. subst y. exact Ep.
Qed.

Lemma fresh_first_occurrences (xs seen : list value) :
  fresh seen xs
  = first_occurrences (List.filter (fun y => negb (value_in y seen)) xs).
Proof.
  revert seen. induction xs as [|x xs IH]; intros seen; simpl; [reflexivity|].
  destruct (value_in x seen); simpl; [apply IH|].
  f_equal. rewrite IH, <- first_occurrences_filter, filter_filter. f_equal.
  apply filter_ext_in. intros y _.
  rewrite value_in_app. simpl. rewrite orb_false_r, negb_orb. reflexivity.
Qed.

Lemma extend_new_first_occurrences (xs : list value) :
  extend_new [] xs = first_occurrences xs.
Proof.
  rewrite extend_new_fresh, fresh_first_occurrences. simpl. f_equal.
  induction xs as [|x xs IH]; simpl; [reflexivity|]. rewrite IH. reflexivity.
Qed.

Lemma gather_app {A : Type} (g : A -> res (list value)) (xs ys : list A) :
  gather g (xs ++ ys)
  = let* x := gather g xs in let* y := gather g ys in Ok (x ++ y).
Proof.
  induction xs as [|a xs IH]; simpl.
  - destruct (gather g ys); reflexivity.
  - destruct (g a) as [i|e]; simpl; [|reflexivity].
    rewrite IH. destruct (gather g xs) as [x|e]; simpl; [|reflexivity].
    destruct (gather g ys) as [y|e]; simpl; [|reflexivity].
    rewrite app_assoc. reflexivity.
Qed.

Lemma gather_ext {A : Type} (g h : A -> res (list value)) (xs : list A) :
  (forall x, x ∈ xs -> g x = h x) -> gather g xs = gather h xs.
Proof.
  induction xs as [|a xs IH]; intros H; simpl; [reflexivity|].
  rewrite (H a) by left. rewrite IH; [reflexivity|].
  intros y Hy. apply H. right. exact Hy.
Qed.

(** A loop whose rounds merge the items of [g] into the results merges
    all the items gathered. *)
Lemma for_each_gather {A : Type} (g : A -> res (list value))
  (body : list value -> A -> res (list value)) (xs : list A) (acc : list value) :
  (forall r x, x ∈ xs -> body r x = let* items := g x in Ok (extend_new r items)) ->
  for_each body acc xs = let* items := gather g xs in Ok (extend_new acc items).
Proof.
  revert acc. induction xs as [|a xs IH]; intros acc H; simpl; [reflexivity|].
  rewrite (H acc a) by left.
  destruct (g a) as [i|e]; simpl; [|reflexivity].
  rewrite IH by (intros r x Hx; apply H; right; exact Hx).
  destruct (gather g xs) as [rest|e]; simpl; [|reflexivity].
  rewrite extend_new_app. reflexivity.
Qed.

Lemma merge_partial_items (results : list value) (partial_results : value) :
  merge_partial results partial_results
  = let* items := (if truthy partial_results then py_iter partial_results else Ok [])
    in Ok (extend_new results items).
Proof. unfold merge_partial. destruct (truthy partial_results); reflexivity. Qed.

(** [all] of a sequence with [strings_first=False]: the items of the
    children, gathered and de-duplicated. *)
Lemma all_sequence_gather ev (sequence : list Translator) (strings : strings_arg) :
  all ev (TranslatorBySequence sequence) strings false
  = res_map VList
      (let* items := gather (child_items ev (as_list strings)) sequence in
       Ok (extend_new [] items)).
Proof.
  cbn [all]. f_equal. apply for_each_gather.
  intros r t _. unfold child_items.
  destruct (all ev t (Strs (as_list strings)) false) as [p|e]; simpl; [|reflexivity].
  apply merge_partial_items.
Qed.

(** [all] of a pattern translator, in both orders. *)
Lemma all_regex_gather ev (tuples : list (Pattern * value)) (strings : strings_arg) :
  all ev (TranslatorByRegex tuples) strings false
  = res_map VList
      (let* items := gather (rule_items ev (as_list strings)) tuples in
       Ok (extend_new [] items)) /\
  all ev (TranslatorByRegex tuples) strings true
  = res_map VList
      (let* items := gather (string_items ev tuples) (as_list strings) in
       Ok (extend_new [] items)).
Proof.
  split; cbn [all]; f_equal; apply for_each_gather; intros r x _;
    apply for_each_gather; reflexivity.
Qed.

(** [all] of a sequence with [strings_first=True]. *)
Lemma all_sequence_gather_strings_first ev (sequence : list Translator)
  (strings : strings_arg) :
  all ev (TranslatorBySequence sequence) strings true
  = res_map VList
      (let* items :=
         gather (fun str =>
                   gather (fun t =>
                             let* p := all ev t (Str str) false in
                             if truthy p then py_iter p else Ok []) sequence)
           (as_list strings) in
       Ok (extend_new [] items)).
Proof.
  cbn [all]. f_equal. apply for_each_gather. intros r str _.
  apply for_each_gather. intros r0 t _.
  destruct (all ev t (Str str) false) as [p|e]; simpl; [|reflexivity].
  apply merge_partial_items.
Qed.

Lemma all_dict_gather (dict : gmap string value) (keys : list value) :
  for_each (fun results key =>
              let* found := dict_find dict key in
              match found with
              | Some (k, result) => Ok (extend_new results (dict_expand result k))
              | None => Ok results
              end) [] keys
  = let* items := gather (key_items dict) keys in Ok (extend_new [] items).
Proof.
  apply for_each_gather. intros r key _. unfold key_items.
  destruct (dict_find dict key) as [[[k result]|]|e]; reflexivity.
Qed.

(** What [all] returns is the list of the items that its loops come
    across, each at the place of its first occurrence. *)
Lemma all_first_occurrences ev (t : Translator) (strings : strings_arg)
  (strings_first : bool) :
  t <> SelfTranslator ->
  all ev t strings strings_first
  = res_map (fun items => VList (first_occurrences items))
      (visited ev t strings strings_first).
Proof.
  assert (Hshape : forall m : res (list value),
            res_map VList (let* items := m in Ok (extend_new [] items))
            = res_map (fun items => VList (first_occurrences items)) m).
  { intros [items|e]; simpl; [|reflexivity].
    rewrite extend_new_first_occurrences. reflexivity. }
  intros Hself.
  destruct t as [sequence|dict path_translator|tuples| |]; [| | | |congruence].
  - destruct strings_first.
    + rewrite all_sequence_gather_strings_first. apply Hshape.
    + rewrite all_sequence_gather. apply Hshape.
  - cbn [all visited].
    destruct (match path_translator with
              | Some pt => _
              | None => _
              end) as [keys|e]; [|reflexivity].
    cbn [res_bind]. rewrite all_dict_gather. apply Hshape.
  - destruct strings_first.
    + rewrite (proj2 (all_regex_gather ev tuples strings)). apply Hshape.
    + rewrite (proj1 (all_regex_gather ev tuples strings)). apply Hshape.
  - reflexivity.
Qed.

(** C3, amended: whatever translator other than the identity translator is
    asked, and with either value of [strings_first], a list that [all]
    returns has no two equal entries, and it holds the items that the
    loops of [all] come across in the order of their first occurrence
    (the first occurrence wins); the identity translator returns its
    argument as it is. *)
Theorem C3_all_deduplicated ev (t : Translator) (strings : strings_arg)
  (strings_first : bool) (v : value) :
  all ev t strings strings_first = Ok v ->
  (t <> SelfTranslator ->
   exists l items,
     v = VList l /\ NoDup l /\
     visited ev t strings strings_first = Ok items /\
     l = first_occurrences items) /\
  (t = SelfTranslator -> v = as_value strings).
Proof.
  intros H. split; [|intros ->; simpl in H; congruence].
  intros Hself. rewrite (all_first_occurrences ev t strings strings_first Hself) in H.
  apply res_map_Ok in H. destruct H as [items [Hitems ->]].
  exists (first_occurrences items), items.
  split; [reflexivity|]. split; [|split; [exact Hitems|reflexivity]].
  rewrite <- extend_new_first_occurrences. apply extend_new_NoDup. constructor.
Qed.

End DeDuplication.

(** C3, as stated, fails for the identity translator, which hands back
    its input with its duplicates. *)
Lemma C3_identity_keeps_duplicates :
  ~ deduplicated no_eval SelfTranslator (Strs ["a"; "a"]) false.
Proof.
  intros H. destruct (H _ eq_refl) as [l [Hl Hnd]].
  injection Hl as <-.
  apply NoDup_cons in Hnd. destruct Hnd as [Hnot _].
  apply Hnot. left.
Qed.

(** C3 at the sequence of the two dictionaries of the tests, asked about
    [a], [b] and [a] again. *)
Lemma C3_all_deduplicated_witness :
  exists l items,
    VList [VStr "1"; VStr "2"; VStr "3"; VStr "4"] = VList l /\ NoDup l /\
    visited no_eval (TranslatorBySequence [D1; D2]) (Strs ["a"; "b"; "a"]) false
      = Ok items /\
    l = first_occurrences items.
Proof.
  refine (proj1 (C3_all_deduplicated no_eval
            (TranslatorBySequence [D1; D2]) (Strs ["a"; "b"; "a"]) false
            (VList [VStr "1"; VStr "2"; VStr "3"; VStr "4"]) _) _).
  - vm_compute. reflexivity.
  - discriminate.
Defined.

(** ** The in-line dictionary expressions (C6) *)

#[local] Arguments String.append !s1 s2 : simpl nomatch.

Lemma startswith_app (p s : string) :
  startswith p s = true -> s = p +:+ str_drop (String.length p) s.
Proof.
  revert s. induction p as [|c p IH]; intros s H; simpl in *.
  - destruct s; reflexivity.
  - destruct s as [|d s]; [discriminate|].
    apply andb_true_iff in H. destruct H as [Hc Hp].
    apply Ascii.eqb_eq in Hc. subst d. simpl. f_equal. apply IH, Hp.
Qed.

Lemma string_app_assoc (a b c : string) : (a +:+ b) +:+ c = a +:+ (b +:+ c).
Proof. induction a as [|x a IH]; simpl; [reflexivity|]. rewrite IH. reflexivity. Qed.

Lemma string_app_nil_r (a : string) : a +:+ "" = a.
Proof. induction a as [|x a IH]; simpl; [reflexivity|]. rewrite IH. reflexivity. Qed.

Lemma dict_index_part_form (s r : string) :
  dict_index_part s = Some r ->
  exists b post, r = b +:+ "]" /\ s = r +:+ post.
Proof.
  revert r. induction s as [|c s IH]; intros r H; simpl in H; [discriminate|].
  destruct (is_char c "]") eqn:Ec.
  - injection H as <-. apply Ascii.eqb_eq in Ec. subst c.
    exists "", s. split; reflexivity.
  - destruct (is_char c newline); [discriminate|].
    destruct (dict_index_part s) as [r'|]; [|discriminate].
    injection H as <-.
    destruct (IH r' eq_refl) as [b [post [-> ->]]].
    exists (String c b), post. split; reflexivity.
Qed.

Lemma dict_body_part_form (s r : string) :
  dict_body_part s = Some r ->
  exists a b post, r = a +:+ "}[" +:+ b +:+ "]" /\ s = r +:+ post.
Proof.
  revert r. induction s as [|c s IH]; intros r H.
  - simpl in H. discriminate.
  - cbn [dict_body_part] in H.
    destruct (startswith "}[" (String c s)) eqn:Es.
    + apply startswith_app in Es. cbn [String.length] in Es.
      destruct (dict_index_part (str_drop 2 (String c s))) as [r'|] eqn:Ei.
      * simpl in H. injection H as <-.
        destruct (dict_index_part_form _ _ Ei) as [b [post [-> Hs]]].
        exists "", b, post. split; [reflexivity|].
        rewrite Es, Hs. reflexivity.
      * simpl in H.
        destruct (is_char c newline); [discriminate|].
        destruct (dict_body_part s) as [r'|]; [|discriminate].
        injection H as <-.
        destruct (IH r' eq_refl) as [a [b [post [-> ->]]]].
        exists (String c a), b, post. split; reflexivity.
    + destruct (is_char c newline); [discriminate|].
      destruct (dict_body_part s) as [r'|]; [|discriminate].
      injection H as <-.
      destruct (IH r' eq_refl) as [a [b [post [-> ->]]]].
      exists (String c a), b, post. split; reflexivity.
Qed.

Lemma dict_match_at_form (s d : string) :
  dict_match_at s = Some d ->
  exists a b post, d = "{" +:+ a +:+ "}[" +:+ b +:+ "]" /\ s = d +:+ post.
Proof.
  destruct s as [|c s]; simpl; [discriminate|].
  destruct (is_char c "{") eqn:Ec; [|discriminate].
  apply Ascii.eqb_eq in Ec. subst c.
  destruct (dict_body_part s) as [r|] eqn:Eb; [|discriminate].
  intros H. injection H as <-.
  destruct (dict_body_part_form _ _ Eb) as [a [b [post [-> ->]]]].
  exists a, b, post. split; reflexivity.
Qed.

(** Every match that [findall] reports has the shape of the pattern and
    stands in the text. *)
Lemma findall_from_form (s : string) (skip : nat) (d : string) :
  d ∈ findall_from skip s ->
  (exists a b, d = "{" +:+ a +:+ "}[" +:+ b +:+ "]") /\
  (exists pre post, s = pre +:+ d +:+ post).
Proof.
  revert skip. induction s as [|c s IH]; intros skip H; cbn [findall_from] in H.
  - apply elem_of_nil in H. contradiction.
  - assert (Hrec : forall k, d ∈ findall_from k s ->
              (exists a b, d = "{" +:+ a +:+ "}[" +:+ b +:+ "]") /\
              (exists pre post, String c s = pre +:+ d +:+ post)).
    { intros k Hk. destruct (IH k Hk) as [Hf [pre [post Hs]]].
      split; [exact Hf|]. exists (String c pre), post. simpl. rewrite Hs. reflexivity. }
    destruct skip as [|k]; [|apply (Hrec k), H].
    destruct (dict_match_at (String c s)) as [d'|] eqn:Em; [|apply (Hrec 0%nat), H].
    apply elem_of_cons in H. destruct H as [->|H]; [|eapply Hrec, H].
    destruct (dict_match_at_form _ _ Em) as [a [b [post [Hd Hs]]]].
    split; [exists a, b; exact Hd|]. exists "", post. exact Hs.
Qed.

Lemma for_each_ext {A B : Type} (f g : B -> A -> res B) (xs : list A) (acc : B) :
  (forall x, x ∈ xs -> forall b, f b x = g b x) ->
  for_each f acc xs = for_each g acc xs.
Proof.
  revert acc. induction xs as [|x xs IH]; intros acc H; simpl; [reflexivity|].
  rewrite (H x) by left.
  destruct (g acc x); simpl; [|reflexivity].
  apply IH. intros y Hy. apply H. right. exact Hy.
Qed.

Lemma without_char_app (c : ascii) (x y : string) :
  without_char c (x +:+ y) = without_char c x && without_char c y.
Proof.
  induction x as [|d x IH]; simpl; [reflexivity|].
  rewrite IH, andb_assoc. reflexivity.
Qed.




























(** ** The case directives (C7) *)

Lemma str_split_not_nil (sep : ascii) (s : string) : str_split sep s <> [].
Proof.
  destruct s as [|c s]; simpl; [discriminate|].
  destruct (is_char c sep); [discriminate|].
  destruct (str_split sep s); discriminate.
Qed.

Lemma str_split_app (a b : string) :
  str_split "#" (a +:+ String "#" b) = str_split "#" a ++ str_split "#" b.
Proof.
  induction a as [|c a IH]; simpl; [reflexivity|].
  destruct (is_char c "#"); [rewrite IH; reflexivity|].
  rewrite IH.
  destruct (str_split "#" a) as [|p ps] eqn:E; [|reflexivity].
  exfalso. exact (str_split_not_nil _ _ E).
Qed.

Lemma str_split_hash_free (t : string) :
  without_char "#" t = true -> str_split "#" t = [t].
Proof.
  induction t as [|c t IH]; intros H; [reflexivity|].
  cbn [without_char] in H. apply andb_true_iff in H. destruct H as [Hc Ht].
  cbn [str_split]. apply negb_true_iff in Hc. rewrite Hc, (IH Ht). reflexivity.
Qed.

Lemma str_map_id (t : string) : str_map (fun c => c) t = t.
Proof. induction t as [|c t IH]; simpl; [reflexivity|]. rewrite IH. reflexivity. Qed.

(** Changing the case part by part is changing the case of the whole,
    for a change that goes character by character and leaves the hash
    sign alone. *)
Lemma join_hash_map_split (f : ascii -> ascii) (t : string) :
  f "#"%char = "#"%char ->
  join_hash (map (str_map f) (str_split "#" t)) = str_map f t.
Proof.
  intros Hf. induction t as [|c t IH]; simpl; [reflexivity|].
  destruct (is_char c "#") eqn:Ec.
  - apply Ascii.eqb_eq in Ec. subst c. rewrite Hf.
    destruct (str_split "#" t) as [|p ps] eqn:E;
      [exfalso; exact (str_split_not_nil _ _ E)|].
    rewrite <- IH. reflexivity.
  - destruct (str_split "#" t) as [|p ps] eqn:E;
      [exfalso; exact (str_split_not_nil _ _ E)|].
    rewrite <- IH. destruct ps; reflexivity.
Qed.

Lemma join_hash_split (t : string) : join_hash (str_split "#" t) = t.
Proof.
  rewrite <- (str_map_id t) at 2.
  rewrite <- (join_hash_map_split (fun c => c) t eq_refl). f_equal.
  induction (str_split "#" t) as [|p ps IH]; [reflexivity|].
  cbn [map]. rewrite str_map_id, <- IH. reflexivity.
Qed.

Lemma apply_case_map (change : case_mode) (t : string) :
  apply_case (str_methods := ascii_methods) change t = str_map (case_char change) t.
Proof. destruct change; simpl; [symmetry; apply str_map_id|reflexivity|reflexivity]. Qed.

Lemma case_char_hash (change : case_mode) : case_char change "#" = "#"%char.
Proof. destruct change; reflexivity. Qed.

(** With the conversions of ASCII text, converting a text part by part
    is converting the whole of it. *)
Lemma converted_ascii (change : case_mode) (t : string) :
  converted (str_methods := ascii_methods) change t
  = apply_case (str_methods := ascii_methods) change t.
Proof.
  unfold converted.
  rewrite (apply_case_map change t),
    <- (join_hash_map_split (case_char change) t (case_char_hash change)).
  f_equal. apply map_ext. intros p. apply apply_case_map.
Qed.

Lemma str_join_app (a b : list string) :
  str_join (a ++ b) = str_join a +:+ str_join b.
Proof.
  induction a as [|x a IH]; simpl; [reflexivity|].
  rewrite IH, string_app_assoc. reflexivity.
Qed.

Lemma marker_free_Forall (text : string) :
  marker_free text = true ->
  Forall (fun p => marker p = None) (str_split "#" text).
Proof.
  unfold marker_free. intros H. apply Forall_forall. intros p Hp.
  rewrite forallb_forall in H. apply list_elem_of_In in Hp.
  specialize (H p Hp). destruct (marker p); [discriminate|reflexivity].
Qed.

Lemma marker_mode_name (m : case_mode) : marker (mode_name m) = Some m.
Proof. destruct m; reflexivity. Qed.

Lemma split_render (segments : list (case_mode * string)) (t0 : string) :
  str_split "#" (t0 +:+ render segments)
  = str_split "#" t0 ++ segment_parts segments.
Proof.
  revert t0. induction segments as [|[m text] segments IH]; intros t0.
  - simpl. rewrite string_app_nil_r, app_nil_r. reflexivity.
  - cbn [render segment_parts].
    assert (E : marker_text m +:+ text +:+ render segments
                = String "#" (mode_name m +:+ String "#" (text +:+ render segments)))
      by (destruct m; reflexivity).
    rewrite E, !str_split_app, IH.
    destruct m; reflexivity.
Qed.

(** A loop that only appends to its accumulator can be run from the empty
    list. *)
Lemma for_each_shift {A B : Type} (body : list B -> A -> res (list B)) :
  (forall acc x, body acc x = let* v := body [] x in Ok (acc ++ v)) ->
  forall xs acc,
    for_each body acc xs = let* vs := for_each body [] xs in Ok (acc ++ vs).
Proof.
  intros Hbody. induction xs as [|x xs IH]; intros acc; simpl.
  - rewrite app_nil_r. reflexivity.
  - rewrite (Hbody acc x). destruct (body [] x) as [v|e]; simpl; [|reflexivity].
    rewrite (IH (acc ++ v)), (IH v).
    destruct (for_each body [] xs) as [vs|e]; simpl; [|reflexivity].
    rewrite app_assoc. reflexivity.
Qed.

(** A loop that appends one value per round returns one value per
    element, each related to its element. *)
Lemma for_each_snoc {A B : Type} (R : A -> B -> Prop)
  (body : list B -> A -> res (list B)) :
  (forall acc x acc', body acc x = Ok acc' -> exists v, acc' = acc ++ [v] /\ R x v) ->
  forall xs acc l, for_each body acc xs = Ok l ->
  exists vs, l = acc ++ vs /\ Forall2 R xs vs.
Proof.
  intros Hbody. induction xs as [|x xs IH]; intros acc l H; simpl in H.
  - injection H as <-. exists []. rewrite app_nil_r. split; [reflexivity|constructor].
  - destruct (body acc x) as [acc'|e] eqn:E; [|discriminate H]. simpl in H.
    destruct (Hbody acc x acc' E) as [v [-> Hv]].
    destruct (IH _ _ H) as [vs [-> Hvs]].
    exists (v :: vs). rewrite <- app_assoc. split; [reflexivity|].
    constructor; assumption.
Qed.

Section CaseDirectives.
Context {str_methods : StrMethods}.

Ltac norm_str :=
  repeat (rewrite ?str_join_app, ?string_app_nil_r, ?string_app_assoc;
          cbn [str_join String.append map join_hash]).

(** Text in the mode MIXED stays as it is, and so does a text without
    hash sign the whole of which is converted. *)
Lemma converted_mixed (t : string) : converted MIXED t = t.
Proof.
  unfold converted. rewrite <- (join_hash_split t) at 2. f_equal.
  induction (str_split "#" t) as [|p ps IH]; [reflexivity|].
  cbn [map apply_case]. rewrite IH. reflexivity.
Qed.

Lemma converted_hash_free (m : case_mode) (t : string) :
  without_char "#" t = true -> converted m t = apply_case m t.
Proof. intros H. unfold converted. rewrite (str_split_hash_free t H). reflexivity. Qed.

(** A run of parts none of which is a marker: the mode stays, the parts
    are joined by the hash signs that separated them. *)
Lemma fix_case_chunk (parts : list string) :
  parts <> [] -> Forall (fun p => marker p = None) parts ->
  forall newparts change literal_hash,
  exists newparts',
    fold_left fix_case_step parts (newparts, change, literal_hash)
      = (newparts', change, true) /\
    str_join newparts'
      = str_join newparts +:+ (if literal_hash then "#" else "")
        +:+ join_hash (map (apply_case change) parts).
Proof.
  induction parts as [|p parts IH]; intros Hne Hall np ch lh; [congruence|].
  apply Forall_cons in Hall. destruct Hall as [Hp Hall].
  cbn [fold_left]. unfold fix_case_step at 2. rewrite Hp.
  destruct parts as [|q parts].
  - cbn [fold_left]. eexists. split; [reflexivity|].
    destruct lh; norm_str; reflexivity.
  - destruct (IH ltac:(discriminate) Hall
                ((if lh then np ++ ["#"] else np) ++ [apply_case ch p]) ch true)
      as [np' [Hfold Hjoin]].
    exists np'. split; [exact Hfold|]. rewrite Hjoin.
    change (map (apply_case ch) (p :: q :: parts))
      with (apply_case ch p :: map (apply_case ch) (q :: parts)).
    change (join_hash (apply_case ch p :: map (apply_case ch) (q :: parts)))
      with (apply_case ch p +:+ String "#" (join_hash (map (apply_case ch) (q :: parts)))).
    generalize (join_hash (map (apply_case ch) (q :: parts))). intros rest.
    destruct lh; norm_str; reflexivity.
Qed.

(** Markers, each followed by its text: every text comes out in the case
    of its marker. *)
Lemma fix_case_segments (segments : list (case_mode * string)) :
  Forall (fun seg => marker_free (snd seg) = true) segments ->
  forall newparts change literal_hash,
  exists newparts' change' literal_hash',
    fold_left fix_case_step (segment_parts segments)
      (newparts, change, literal_hash) = (newparts', change', literal_hash') /\
    str_join newparts' = str_join newparts +:+ cased segments.
Proof.
  induction segments as [|[m text] segments IH]; intros Hall np ch lh.
  - exists np, ch, lh. split; [reflexivity|]. simpl.
    rewrite string_app_nil_r. reflexivity.
  - apply Forall_cons in Hall. destruct Hall as [Htext Hall].
    cbn [segment_parts fold_left]. rewrite fold_left_app.
    unfold fix_case_step at 3. rewrite marker_mode_name.
    destruct (fix_case_chunk (str_split "#" text) (str_split_not_nil _ _)
                (marker_free_Forall _ Htext) np m false) as [np1 [Hfold1 Hjoin1]].
    rewrite Hfold1.
    destruct (IH Hall np1 m true) as [np2 [ch2 [lh2 [Hfold2 Hjoin2]]]].
    exists np2, ch2, lh2. split; [exact Hfold2|].
    rewrite Hjoin2, Hjoin1. cbn [cased]. unfold converted.
    norm_str. reflexivity.
Qed.

(** What [_fix_case] makes of a text laid out in segments. *)
Lemma fix_case_render (t0 : string) (segments : list (case_mode * string)) :
  marker_free t0 = true ->
  Forall (fun seg => marker_free (snd seg) = true) segments ->
  _fix_case (t0 +:+ render segments) = t0 +:+ cased segments.
Proof.
  intros H0 Hall. unfold _fix_case.
  rewrite split_render, fold_left_app.
  destruct (fix_case_chunk (str_split "#" t0) (str_split_not_nil _ _)
              (marker_free_Forall _ H0) [] MIXED false) as [np1 [Hfold1 Hjoin1]].
  rewrite Hfold1.
  destruct (fix_case_segments segments Hall np1 MIXED true)
    as [np2 [ch2 [lh2 [Hfold2 Hjoin2]]]].
  rewrite Hfold2, Hjoin2, Hjoin1.
  change (join_hash (map (apply_case MIXED) (str_split "#" t0)))
    with (converted MIXED t0).
  rewrite converted_mixed. reflexivity.
Qed.

(** The items of a replacement list are expanded one by one: the item at
    the head of the list gives what it gives alone. *)
Lemma expand_item_cons ev (regex : Pattern) (str : string) (x : value)
  (rest : list value) :
  expand ev regex str (VList (x :: rest))
  = let* a := expand ev regex str (VList [x]) in
    let* b := expand ev regex str (VList rest) in
    Ok (a ++ b).
Proof.
  unfold expand. destruct (pat_match regex str) as [m|]; [|reflexivity].
  match goal with |- for_each ?b _ _ = _ => set (body := b) end.
  assert (Hbody : forall acc x, body acc x = let* v := body [] x in Ok (acc ++ v)).
  { intros acc y. unfold body. destruct y as [s|n|items|items|]; simpl.
    - destruct (match_expand m s); simpl; [|reflexivity].
      destruct (_evaluate_dict ev _); reflexivity.
    - reflexivity.
    - destruct (for_each _ [] items); reflexivity.
    - reflexivity.
    - reflexivity. }
  cbn [for_each]. rewrite (Hbody [] x).
  destruct (body [] x) as [v|e]; simpl; [|reflexivity].
  apply (for_each_shift body Hbody rest v).
Qed.

Lemma expand_cons ev (regex : Pattern) (str r : string) (rest : list value) :
  expand ev regex str (VList (VStr r :: rest))
  = let* a := expand ev regex str (VStr r) in
    let* b := expand ev regex str (VList rest) in
    Ok (a ++ b).
Proof. apply expand_item_cons. Qed.

(** A string is expanded by [matchobj.expand], [_fix_case] and
    [_evaluate_dict], in this order. *)
Lemma expand_string ev (regex : Pattern) (str r : string) (mo : MatchObj) :
  pat_match regex str = Some mo ->
  expand ev regex str (VStr r)
  = let* x := match_expand mo r in
    let* y := _evaluate_dict ev (_fix_case x) in
    Ok [VStr y].
Proof.
  intros Hm. unfold expand. rewrite Hm. cbn [for_each].
  destruct (match_expand mo r) as [x|e]; cbn [res_bind]; [|reflexivity].
  destruct (_evaluate_dict ev (_fix_case x)); reflexivity.
Qed.

(** The elements of a tuple are expanded one by one: each comes out as
    it does in the tuple of this element alone. *)
Lemma expand_tuple_items ev (regex : Pattern) (str : string) (t outs : list value) :
  expand ev regex str (VTuple t) = Ok [VTuple outs] ->
  Forall2 (fun item out => expand ev regex str (VTuple [item]) = Ok [VTuple [out]])
    t outs.
Proof.
  unfold expand. destruct (pat_match regex str) as [mo|]; [|discriminate].
  cbn [for_each]. intros H.
  match type of H with
  | context [for_each ?b [] t] => set (body := b) in *
  end.
  destruct (for_each body [] t) as [items|e] eqn:E; [|discriminate H].
  cbn [res_bind] in H. injection H as <-.
  apply (for_each_snoc (fun item out => body [] item = Ok [out])) in E.
  - destruct E as [vs [-> Hvs]]. cbn [app].
    induction Hvs as [|item out t outs Hitem _ IH]; constructor; [|exact IH].
    unfold body in Hitem. cbn [app] in Hitem. rewrite Hitem. reflexivity.
  - clear. intros acc x acc' H. unfold body in *.
    destruct x as [s|n|l|l|];
      try (injection H as <-; eexists; split; reflexivity).
    destruct (match_expand mo s) as [r1|e]; [|discriminate H]. cbn [res_bind] in *.
    destruct (_evaluate_dict ev (_fix_case r1)) as [r2|e]; [|discriminate H].
    cbn [res_bind] in *.
    destruct (match_expand mo r2) as [r3|e]; [|discriminate H]. cbn [res_bind] in *.
    injection H as <-. eexists. split; reflexivity.
Qed.

(** C7, amended: in a replacement text made of a first stretch of text and
    of markers [#UPPER#], [#LOWER#], [#MIXED#] each followed by its text,
    where no part between two hash signs of these texts spells the name
    of a mode, the first stretch is left as it is and every text comes out
    in the case of the marker before it, converted part by part between
    its hash signs, which stay (with the conversions of ASCII text, that
    is the conversion of the whole text).  The mode starts as MIXED for
    every string that is processed: the items of a replacement list, and
    the elements of a tuple, are expanded one by one, each as it is
    expanded alone.  The examples of the specification hold. *)
Theorem C7_case_directives ev (t0 : string) (segments : list (case_mode * string)) :
  marker_free t0 = true ->
  Forall (fun seg => marker_free (snd seg) = true) segments ->
  _fix_case (t0 +:+ render segments) = t0 +:+ cased segments /\
  (forall text, converted MIXED text = text) /\
  (forall m text, without_char "#" text = true -> converted m text = apply_case m text) /\
  (forall m text,
     converted (str_methods := ascii_methods) m text
     = apply_case (str_methods := ascii_methods) m text) /\
  (forall regex str r mo,
     pat_match regex str = Some mo ->
     expand ev regex str (VStr r)
     = let* x := match_expand mo r in
       let* y := _evaluate_dict ev (_fix_case x) in
       Ok [VStr y]) /\
  (forall regex str x rest,
     expand ev regex str (VList (x :: rest))
     = let* a := expand ev regex str (VList [x]) in
       let* b := expand ev regex str (VList rest) in
       Ok (a ++ b)) /\
  (forall regex str r rest,
     expand ev regex str (VList (VStr r :: rest))
     = let* a := expand ev regex str (VStr r) in
       let* b := expand ev regex str (VList rest) in
       Ok (a ++ b)) /\
  (forall regex str t outs,
     expand ev regex str (VTuple t) = Ok [VTuple outs] ->
     Forall2 (fun item out => expand ev regex str (VTuple [item]) = Ok [VTuple [out]])
       t outs) /\
  expand_with (str_methods := ascii_methods) ev word_pattern "test" (VStr "#UPPER#\1")
    = Ok [VStr "TEST"] /\
  expand_with (str_methods := ascii_methods) ev word_pattern "test"
    (VStr "#UPPER#\1#LOWER#_suffix")
    = Ok [VStr "TEST_suffix"] /\
  expand_with (str_methods := ascii_methods) ev word_pattern "test"
    (VList [VStr "#UPPER#\1"; VStr "\1"])
    = Ok [VStr "TEST"; VStr "test"] /\
  expand_with (str_methods := ascii_methods) ev word_pattern "test"
    (VTuple [VStr "#UPPER#ab"; VStr "cd"])
    = Ok [VTuple [VStr "AB"; VStr "cd"]].
Proof.
  intros H0 Hall. split; [apply fix_case_render; assumption|].
  split; [apply converted_mixed|].
  split; [apply converted_hash_free|].
  split; [apply converted_ascii|].
  split; [intros; apply expand_string; assumption|].
  split; [intros; apply expand_item_cons|].
  split; [intros; apply expand_cons|].
  split; [intros; apply expand_tuple_items; assumption|].
  repeat split; vm_compute; reflexivity.
Qed.

End CaseDirectives.

(** C7, as stated, fails: the second item of the list comes out in lower
    case, the mode of the first item is not carried over to it. *)
Lemma C7_mode_not_carried :
  ~ case_mode_carried no_eval word_pattern "test" ["#UPPER#ab"; "cd"].
Proof. unfold case_mode_carried. vm_compute. discriminate. Qed.

(** C7 at the text [a#b#UPPER#c#d#LOWER#E#MIXED#x]. *)
Lemma C7_case_directives_witness :
  _fix_case "a#b#UPPER#c#d#LOWER#E#MIXED#x" = "a#bC#Dex".
Proof.
  refine (proj1 (C7_case_directives no_eval "a#b"
                   [(UPPER, "c#d"); (LOWER, "E"); (MIXED, "x")] _ _)).
  - vm_compute. reflexivity.
  - repeat constructor.
Defined.

(** ** Tuples in the replacement (C8) *)

Section TupleReplacements.
Context {str_methods : StrMethods}.

(** C8: a string inside a tuple goes through [matchobj.expand] a second
    time.  The template [\\1] stands for a backslash and the digit 1 when
    it is the replacement itself, and for the text of the first group
    when it is an element of a tuple. *)
Theorem C8_tuple_expanded_twice ev :
  expand_with ev word_pattern "test" (VStr "\\1") = Ok [VStr "\1"] /\
  expand_with ev word_pattern "test" (VTuple [VStr "\\1"]) = Ok [VTuple [VStr "test"]] /\
  expand_with ev word_pattern "test" (VTuple [VInt 123; VStr "\1"])
    = Ok [VTuple [VInt 123; VStr "test"]].
Proof. repeat split; vm_compute; reflexivity. Qed.

End TupleReplacements.

(** ** Compiled patterns given to the constructor (C10) *)

Section CompiledPatterns.
Context {str_methods : StrMethods}.


Lemma for_each_Raise {A B : Type} (body : B -> A -> res B) (xs : list A)
  (acc : B) (e : exn) :
  for_each body acc xs = Raise e ->
  exists x acc', x ∈ xs /\ body acc' x = Raise e.
Proof.
  revert acc. induction xs as [|x xs IH]; intros acc H; simpl in H; [discriminate H|].
  destruct (body acc x) as [acc'|e'] eqn:E; simpl in H.
  - destruct (IH _ H) as [y [a [Hy Ha]]]. exists y, a. split; [right; exact Hy|exact Ha].
  - injection H as ->. exists x, acc. split; [left|exact E].
Qed.

(** The constructor keeps the rules in their order, each with its
    replacement and with its pattern, compiled if it was a string. *)
Lemma init_keeps_rules rc (rules : list rule) :
  match TranslatorByRegex_init rc rules with
  | Ok T =>
      exists tuples, T = TranslatorByRegex tuples /\
        Forall2 (fun r t => rule_pattern rc r = Ok (fst t) /\ snd t = rule_replacement r)
          rules tuples
  | Raise e => exists r, r ∈ rules /\ rule_pattern rc r = Raise e
  end.
Proof.
  unfold TranslatorByRegex_init.
  match goal with |- context [for_each ?b [] rules] => set (body := b) end.
  destruct (for_each body [] rules) as [l|e] eqn:E; simpl.
  - exists l. split; [reflexivity|].
    apply (for_each_snoc
             (fun r t => rule_pattern rc r = Ok (fst t) /\ snd t = rule_replacement r))
      in E.
    + destruct E as [vs [-> Hvs]]. exact Hvs.
    + clear. intros acc x acc' H. unfold body in H.
      destruct x as [s v|p v|s f v]; simpl in H.
      * destruct (rc _ _) as [regex|e] eqn:Er; [|discriminate H].
        simpl in H. injection H as <-. eexists. split; [reflexivity|].
        split; [exact Er|reflexivity].
      * injection H as <-. eexists. split; [reflexivity|]. split; reflexivity.
      * destruct (rc _ _) as [regex|e] eqn:Er; [|discriminate H].
        simpl in H. injection H as <-. eexists. split; [reflexivity|].
        split; [exact Er|reflexivity].
  - apply for_each_Raise in E. destruct E as [x [acc' [Hx Hb]]].
    exists x. split; [exact Hx|]. unfold body in Hb.
    destruct x as [s v|p v|s f v]; simpl in *.
    + destruct (rc _ _); [discriminate Hb|simpl in Hb; congruence].
    + discriminate Hb.
    + destruct (rc _ _); [discriminate Hb|simpl in Hb; congruence].
Qed.


End CompiledPatterns.

(** C10, as stated, fails in its last part: a rule given as a pattern
    string does not guarantee a match of the whole string.  The rule
    [a|b] is compiled as [^a|b$], which matches [azzz] at its start. *)
Lemma C10_string_rule_matches_prefix :
  ~ matches_fully_only "a|b" (fun str => str = "a" \/ str = "b").
Proof.
  intros H.
  destruct (H (VStr "x") "azzz" (VStr "x")) as [E|E];
    [vm_compute; reflexivity|discriminate E|discriminate E].
Qed.

(** ** The embedding on examples of the test-suite *)

Section TestSuite.
Context {str_methods : StrMethods}.

Example test_basic_dict_translation ev :
  let trans := TranslatorByDict
    (dict_of [("apple", VStr "fruit"); ("carrot", VStr "vegetable")]) None in
  first ev trans (Str "apple") false = Ok (Some (VStr "fruit")) /\
  first ev trans (Str "unknown") false = Ok None /\
  all ev trans (Strs ["apple"; "unknown"; "carrot"]) false
    = Ok (VList [VStr "fruit"; VStr "vegetable"]).
Proof. repeat split; vm_compute; reflexivity. Qed.

Example test_dict_with_backslash_one ev :
  first ev (TranslatorByDict (dict_of [("test", VStr "prefix_\1_suffix")]) None)
    (Str "test") false
  = Ok (Some (VStr "prefix_test_suffix")).
Proof. vm_compute. reflexivity. Qed.

Example test_basic_regex_translation ev :
  regex_first ev [Rule2S "data/(\w+)/(\w+)\.txt" (VStr "processed/\1/\2.dat")]
    "data/2024/observations.txt"
  = Ok (Some (VStr "processed/2024/observations.dat")) /\
  regex_first ev [Rule2S "data/(\w+)/(\w+)\.txt" (VStr "processed/\1/\2.dat")]
    "no_match.txt"
  = Ok None.
Proof. split; vm_compute; reflexivity. Qed.

Example test_regex_expand_with_literal_hash ev :
  expand_with ev word_pattern "test" (VStr "prefix#\1#suffix")
  = Ok [VStr "prefix#test#suffix"].
Proof. vm_compute. reflexivity. Qed.

Example test_self_with_sequence ev :
  first ev (TranslatorBySequence [SelfTranslator; D1a]) (Str "test") false
  = Ok (Some (VStr "test")) /\
  first ev (TranslatorBySequence [SelfTranslator; D1a]) (Str "a") false
  = Ok (Some (VStr "a")) /\
  first ev (TranslatorBySequence [SelfTranslator; D1a]) (Str "test") true
  = Ok (Some (VStr "t")).
Proof. repeat split; vm_compute; reflexivity. Qed.

End TestSuite.

(** * Further properties of the module *)

(** Induction on translators that reaches into sequences and path
    translators. *)
Lemma Translator_nested_ind (P : Translator -> Prop) :
  (forall sequence, Forall P sequence -> P (TranslatorBySequence sequence)) ->
  (forall dict, P (TranslatorByDict dict None)) ->
  (forall dict pt, P pt -> P (TranslatorByDict dict (Some pt))) ->
  (forall tuples, P (TranslatorByRegex tuples)) ->
  P NullTranslator -> P SelfTranslator ->
  forall t, P t.
Proof.
  intros HSeq HDict HPath HRegex HNull HSelf.
  fix IH 1. intros [sequence|dict [pt|]|tuples| |].
  - apply HSeq. induction sequence as [|x sequence IHs]; constructor;
      [apply IH|exact IHs].
  - apply HPath, IH.
  - apply HDict.
  - apply HRegex.
  - apply HNull.
  - apply HSelf.
Qed.

(** ** Empty input *)

Section EmptyInput.
Context {str_methods : StrMethods}.

Lemma for_each_const {A B : Type} (body : B -> A -> res B) (xs : list A) (acc : B) :
  (forall x, x ∈ xs -> body acc x = Ok acc) -> for_each body acc xs = Ok acc.
Proof.
  induction xs as [|x xs IH]; intros H; simpl; [reflexivity|].
  rewrite (H x) by left. simpl. apply IH. intros y Hy. apply H. right. exact Hy.
Qed.

(** X1: asked about no string at all, every translator answers [all] with
    the empty list, whatever [strings_first]. *)
Theorem all_of_no_string ev (t : Translator) (strings_first : bool) :
  all ev t (Strs []) strings_first = Ok (VList []).
Proof.
  revert strings_first.
  induction t as [sequence IH|dict|dict pt IH|tuples| |]
    using Translator_nested_ind; intros sf; cbn [all as_list].
  - destruct sf; [reflexivity|].
    rewrite for_each_const; [reflexivity|].
    intros t Ht. rewrite Forall_forall in IH.
    rewrite (IH t Ht false). reflexivity.
  - reflexivity.
  - rewrite (IH false). reflexivity.
  - destruct sf; [reflexivity|].
    rewrite for_each_const; [reflexivity|]. reflexivity.
  - reflexivity.
  - reflexivity.
Qed.

(** X2: asked about no string at all, [first] returns [None] or raises
    [IndexError]; with [strings_first] it returns [None] unless the
    translator is the identity translator itself. *)
Theorem first_of_no_string ev (t : Translator) :
  (forall strings_first,
     first ev t (Strs []) strings_first = Ok None \/
     first ev t (Strs []) strings_first = Raise IndexError) /\
  (first ev t (Strs []) true
   = match t with SelfTranslator => Raise IndexError | _ => Ok None end).
Proof.
  split.
  - induction t as [sequence IH|dict|dict pt IH|tuples| |]
      using Translator_nested_ind; intros sf; cbn [first as_list].
    + destruct sf; [left; reflexivity|].
      induction IH as [|t sequence Ht _ IHs]; [left; reflexivity|].
      cbn [for_first]. destruct (Ht false) as [-> | ->]; [exact IHs|right; reflexivity].
    + left. reflexivity.
    + rewrite all_of_no_string. left. reflexivity.
    + destruct sf; [left; reflexivity|].
      left. induction tuples as [|t tuples IHt]; [reflexivity|exact IHt].
    + left. reflexivity.
    + right. reflexivity.
  - destruct t as [sequence|dict [pt|]|tuples| |]; cbn [first as_list];
      rewrite ?all_of_no_string; reflexivity.
Qed.

End EmptyInput.

(** ** Keys and values *)

Lemma insert_sorted_perm (k : string) (l : list string) :
  insert_sorted k l ≡ₚ k :: l.
Proof.
  induction l as [|x l IH]; simpl; [reflexivity|].
  destruct (String.leb k x); [reflexivity|].
  rewrite IH. apply perm_swap.
Qed.

Lemma sort_strings_perm (l : list string) : sort_strings l ≡ₚ l.
Proof.
  induction l as [|x l IH]; simpl; [reflexivity|].
  rewrite insert_sorted_perm, IH. reflexivity.
Qed.

Lemma insert_sorted_Sorted (k : string) (l : list string) :
  Sorted leb_rel l -> Sorted leb_rel (insert_sorted k l).
Proof.
  induction l as [|x l IH]; intros H; simpl.
  - repeat constructor.
  - destruct (String.leb k x) eqn:E.
    + constructor; [exact H|]. constructor. exact E.
    + apply Sorted_inv in H. destruct H as [Hl Hhd].
      constructor; [apply IH, Hl|].
      assert (Hxk : leb_rel x k)
        by (destruct (String.leb_total k x) as [Hk|Hk]; [congruence|exact Hk]).
      destruct l as [|y l]; simpl; [constructor; exact Hxk|].
      destruct (String.leb k y); constructor; [exact Hxk|].
      apply HdRel_inv in Hhd. exact Hhd.
Qed.

Lemma sort_strings_Sorted (l : list string) : Sorted leb_rel (sort_strings l).
Proof.
  induction l as [|x l IH]; simpl; [constructor|].
  apply insert_sorted_Sorted, IH.
Qed.

Lemma leb_neq_ltb (a b : string) : leb_rel a b -> a <> b -> ltb_rel a b.
Proof.
  unfold leb_rel, ltb_rel, String.leb, String.ltb. intros H Hne.
  destruct (String.compare a b) eqn:E; try reflexivity; [|discriminate H].
  apply String.compare_eq_iff in E. contradiction.
Qed.

(** A list in ascending order without repetitions is in strictly
    ascending order. *)
Lemma Sorted_strict (l : list string) :
  Sorted leb_rel l -> NoDup l -> Sorted ltb_rel l.
Proof.
  induction l as [|x l IH]; intros Hs Hnd; [constructor|].
  apply Sorted_inv in Hs. destruct Hs as [Hl Hhd].
  apply NoDup_cons in Hnd. destruct Hnd as [Hx Hnd].
  constructor; [apply IH; assumption|].
  destruct l as [|y l]; constructor.
  apply HdRel_inv in Hhd. apply leb_neq_ltb; [exact Hhd|].
  intros ->. apply Hx. left.
Qed.

Lemma dict_keys_elem_of (dict : gmap string value) (k : string) :
  k ∈ dict_keys dict <-> is_Some (dict !! k).
Proof.
  unfold dict_keys. rewrite sort_strings_perm.
  change (map fst (map_to_list dict)) with ((map_to_list dict).*1).
  rewrite list_elem_of_fmap. split.
  - intros [[k' v] [-> H]]. apply elem_of_map_to_list in H. exists v. exact H.
  - intros [v H]. exists (k, v). split; [reflexivity|].
    apply elem_of_map_to_list. exact H.
Qed.

Lemma dict_keys_NoDup (dict : gmap string value) : NoDup (dict_keys dict).
Proof.
  unfold dict_keys. rewrite sort_strings_perm.
  apply NoDup_fst_map_to_list.
Qed.

Lemma collect_lookup {A B : Type} (f : A -> option B) (xs : list A) :
  (forall x, x ∈ xs -> is_Some (f x)) ->
  exists ys, collect f xs = Some ys /\ length ys = length xs /\
             forall i x, xs !! i = Some x -> ys !! i = f x.
Proof.
  induction xs as [|x xs IH]; intros H.
  - exists []. repeat split. intros i x Hi. rewrite lookup_nil in Hi. discriminate.
  - destruct (H x ltac:(left)) as [y Hy].
    destruct IH as [ys [Hc [Hlen Hlk]]]; [intros z Hz; apply H; right; exact Hz|].
    exists (y :: ys). simpl. rewrite Hy, Hc, Hlen. repeat split.
    intros [|i] z Hi; simpl in *; [congruence|apply Hlk, Hi].
Qed.

(** X3: the keys of a dictionary translator are exactly the keys of its
    mapping, each once and in strictly ascending order, and [values()]
    lists, position by position, the value stored under each key. *)
Theorem dict_keys_values (dict : gmap string value) (pt : option Translator) :
  keys (TranslatorByDict dict pt) = map KStr (dict_keys dict) /\
  (forall k, k ∈ dict_keys dict <-> is_Some (dict !! k)) /\
  Sorted ltb_rel (dict_keys dict) /\
  exists vs, values (TranslatorByDict dict pt) = Some vs /\
             length vs = length (dict_keys dict) /\
             forall i k, dict_keys dict !! i = Some k -> vs !! i = dict !! k.
Proof.
  split; [reflexivity|]. split; [apply dict_keys_elem_of|].
  split; [apply Sorted_strict; [apply sort_strings_Sorted|apply dict_keys_NoDup]|].
  cbn [values]. apply collect_lookup.
  intros k Hk. apply dict_keys_elem_of, Hk.
Qed.

(** X4: [values()] never fails, and it is as long as [keys()], for every
    translator: one entry per child for a sequence, one per key for a
    dictionary, one per rule for a pattern translator, none for the null
    and identity translators. *)
Theorem values_parallel_to_keys (t : Translator) :
  exists vs, values t = Some vs /\ length vs = length (keys t) /\
    length vs = match t with
                | TranslatorBySequence sequence => length sequence
                | TranslatorByDict dict _ => size dict
                | TranslatorByRegex tuples => length tuples
                | NullTranslator | SelfTranslator => 0%nat
                end.
Proof.
  induction t as [sequence IH|dict|dict pt IH|tuples| |]
    using Translator_nested_ind.
  - cbn [values keys]. rewrite length_map.
    destruct (collect_lookup (fun t => option_map VList (values t)) sequence)
      as [vs [Hc [Hlen _]]].
    + intros t Ht. rewrite Forall_forall in IH.
      destruct (IH t Ht) as [v [-> _]]. eexists. reflexivity.
    + exists vs. rewrite Hlen. repeat split. exact Hc.
  - destruct (dict_keys_values dict None) as [_ [_ [_ [vs [Hv [Hlen _]]]]]].
    exists vs. split; [exact Hv|]. cbn [keys]. rewrite length_map, Hlen.
    split; [reflexivity|].
    unfold dict_keys. rewrite sort_strings_perm, length_map.
    apply length_map_to_list.
  - destruct (dict_keys_values dict (Some pt)) as [_ [_ [_ [vs [Hv [Hlen _]]]]]].
    exists vs. split; [exact Hv|]. cbn [keys]. rewrite length_map, Hlen.
    split; [reflexivity|].
    unfold dict_keys. rewrite sort_strings_perm, length_map.
    apply length_map_to_list.
  - exists (map snd tuples). cbn [values keys]. rewrite !length_map. repeat split.
  - exists []. repeat split.
  - exists []. repeat split.
Qed.

(** ** Loops that look for the first item *)

Section FirstItem.
Context {str_methods : StrMethods}.

Lemma child_items_list ev strings t (m : res (list value)) :
  all ev t (Strs strings) false = res_map VList m ->
  child_items ev strings t = m.
Proof.
  unfold child_items. intros ->. destruct m as [l|e]; simpl; [|reflexivity].
  destruct l; reflexivity.
Qed.



Lemma for_first_app {A B : Type} (f : A -> res (option B)) (xs ys : list A) :
  for_first f (xs ++ ys)
  = let* r := for_first f xs in
    match r with
    | Some b => Ok (Some b)
    | None => for_first f ys
    end.
Proof.
  induction xs as [|x xs IH]; simpl; [reflexivity|].
  destruct (f x) as [[b|]|e]; simpl; [reflexivity|exact IH|reflexivity].
Qed.

Lemma for_first_ext {A B : Type} (f g : A -> res (option B)) (xs : list A) :
  (forall x, x ∈ xs -> f x = g x) -> for_first f xs = for_first g xs.
Proof.
  induction xs as [|x xs IH]; intros H; simpl; [reflexivity|].
  rewrite (H x) by left. destruct (g x) as [[b|]|e]; simpl; try reflexivity.
  apply IH. intros y Hy. apply H. right. exact Hy.
Qed.

Lemma for_first_single {A B : Type} (f : A -> res (option B)) (x : A) :
  for_first f [x] = f x.
Proof. simpl. destruct (f x) as [[b|]|e]; reflexivity. Qed.

Lemma for_first_pair {A B : Type} (f : A -> res (option B)) (x y : A) :
  for_first f [x; y]
  = let* r := f x in match r with Some b => Ok (Some b) | None => f y end.
Proof.
  change [x; y] with ([x] ++ [y]).
  rewrite for_first_app, !for_first_single. reflexivity.
Qed.

End FirstItem.

(** ** Expansions, item by item *)

Section ItemByItem.
Context {str_methods : StrMethods}.

(** One result per replacement, each of the shape of its replacement. *)
Lemma expand_items_shape ev (regex : Pattern) (str : string) (replacements : value)
  (l : list value) :
  expand ev regex str replacements = Ok l ->
  match pat_match regex str with
  | None => l = []
  | Some _ => Forall2 replacement_shape (as_replacements replacements) l
  end.
Proof.
  unfold expand. destruct (pat_match regex str) as [m|]; [|congruence].
  intros H. apply (for_each_snoc replacement_shape) in H.
  - destruct H as [vs [-> Hvs]]. exact Hvs.
  - clear H. intros acc x acc' H.
    destruct x as [s|n|t|t|]; simpl in H.
    + destruct (match_expand m s) as [r1|e]; [|discriminate H]. simpl in H.
      destruct (_evaluate_dict ev (_fix_case r1)) as [r2|e]; [|discriminate H].
      simpl in H. injection H as <-. eexists. split; [reflexivity|].
      eexists. reflexivity.
    + injection H as <-. eexists. split; reflexivity.
    + destruct (for_each _ [] t) as [items|e] eqn:Et; [|discriminate H].
      simpl in H. injection H as <-. eexists. split; [reflexivity|].
      exists items. split; [reflexivity|].
      apply (for_each_snoc element_shape) in Et.
      * destruct Et as [vs [-> Hvs]]. exact Hvs.
      * clear. intros acc x acc' H.
        destruct x as [s|n|t|t|]; simpl in H;
          try (injection H as <-; eexists; split; reflexivity).
        destruct (match_expand m s) as [r1|e]; [|discriminate H]. simpl in H.
        destruct (_evaluate_dict ev (_fix_case r1)) as [r2|e]; [|discriminate H].
        simpl in H.
        destruct (match_expand m r2) as [r3|e]; [|discriminate H]. simpl in H.
        injection H as <-. eexists. split; [reflexivity|]. eexists. reflexivity.
    + injection H as <-. eexists. split; reflexivity.
    + injection H as <-. eexists. split; reflexivity.
Qed.



Lemma for_first_never {A B : Type} (bad : B) (f : A -> res (option B)) (xs : list A) :
  (forall x r, x ∈ xs -> f x = Ok r -> r <> Some bad) ->
  forall r, for_first f xs = Ok r -> r <> Some bad.
Proof.
  induction xs as [|x xs IH]; intros H r Hr; simpl in Hr.
  - injection Hr as <-. discriminate.
  - destruct (f x) as [[b|]|e] eqn:E; simpl in Hr; [| |discriminate Hr].
    + injection Hr as <-. exact (H x (Some b) ltac:(left) E).
    + apply IH; [|exact Hr]. intros y r0 Hy. apply H. right. exact Hy.
Qed.



Lemma first_sequence_eq ev (sequence : list Translator) (strings : strings_arg)
  (sf : bool) :
  first ev (TranslatorBySequence sequence) strings sf
  = if sf then
      for_first (fun str =>
        for_first (fun t => first ev t (Str str) false) sequence) (as_list strings)
    else for_first (fun t => first ev t (Strs (as_list strings)) false) sequence.
Proof. reflexivity. Qed.

Lemma first_regex_eq ev (tuples : list (Pattern * value)) (strings : strings_arg)
  (sf : bool) :
  first ev (TranslatorByRegex tuples) strings sf
  = res_map returned
      (if sf then
         for_first (fun str => for_first (fun t => rule_first ev t str) tuples)
           (as_list strings)
       else
         for_first (fun t => for_first (fun str => rule_first ev t str) (as_list strings))
           tuples).
Proof. reflexivity. Qed.



Lemma returned_not_none (r : option value) : returned r <> Some VNone.
Proof. destruct r as [[]|]; discriminate. Qed.

(** [first] never hands a stored [None] on as a translation: its [None]
    is the one [None] of Python. *)
Lemma first_never_stored_none ev (t : Translator) (strings : strings_arg)
  (strings_first : bool) (r : option value) :
  first ev t strings strings_first = Ok r -> r <> Some VNone.
Proof.
  revert strings strings_first r.
  induction t as [sequence IH|dict|dict pt IH|tuples| |]
    using Translator_nested_ind; intros strings sf r H.
  - rewrite Forall_forall in IH. rewrite first_sequence_eq in H.
    destruct sf; revert r H; apply for_first_never.
    + intros str r _. apply for_first_never. intros t r0 Ht. apply (IH t Ht).
    + intros t r Ht. apply (IH t Ht).
  - cbn [first res_bind] in H. apply res_map_Ok in H.
    destruct H as [r' [_ ->]]. apply returned_not_none.
  - cbn [first] in H.
    destruct (all ev pt (Strs (as_list strings)) false) as [ks|e]; [|discriminate H].
    cbn [res_bind] in H. destruct (py_iter ks) as [keys|e]; [|discriminate H].
    cbn [res_bind] in H. apply res_map_Ok in H.
    destruct H as [r' [_ ->]]. apply returned_not_none.
  - rewrite first_regex_eq in H. apply res_map_Ok in H.
    destruct H as [r' [_ ->]]. apply returned_not_none.
  - injection H as <-. discriminate.
  - cbn [first] in H.
    destruct strings as [[|c s]|[|x l]]; try discriminate H;
      injection H as <-; discriminate.
Qed.

End ItemByItem.

(** ** Merging is sequencing *)

Section MergingIsSequencing.
Context {str_methods : StrMethods}.



Lemma truthy_items_list (l : list value) :
  (if truthy (VList l) then py_iter (VList l) else Ok []) = Ok l.
Proof. destruct l; reflexivity. Qed.

(** The concatenation of two lists of children answers, with
    [strings_first=False], as the sequence of the two sequences. *)
Lemma sequence_flatten ev (a b : list Translator) (strings : strings_arg) :
  all ev (TranslatorBySequence (a ++ b)) strings false
  = all ev (TranslatorBySequence [TranslatorBySequence a; TranslatorBySequence b])
      strings false /\
  first ev (TranslatorBySequence (a ++ b)) strings false
  = first ev (TranslatorBySequence [TranslatorBySequence a; TranslatorBySequence b])
      strings false.
Proof.
  revert strings.
  intros strings. split.
  - rewrite !all_sequence_gather. f_equal.
    rewrite gather_app. cbn [gather].
    rewrite !(child_items_list ev _ _ _ (all_sequence_gather ev _ (Strs (as_list strings)))).
    cbn [as_list].
    destruct (gather _ a) as [xa|e]; simpl; [|reflexivity].
    destruct (gather _ b) as [xb|e]; simpl; [|reflexivity].
    rewrite app_nil_r, !extend_new_app, !extend_new_dedupe. reflexivity.
  - cbn [first]. rewrite for_first_pair, for_first_app. cbn [first as_list].
    destruct (for_first _ a) as [[x|]|e]; reflexivity.
Qed.

(** X6: two sequences merged by [append] answer [all] and [first] with
    [strings_first=False] exactly as the sequence of the two sequences
    does, exceptions included. *)
Theorem sequence_merge_is_sequence ev rc (a b : list Translator) :
  exists R, append rc (TranslatorBySequence a) (TranslatorBySequence b) = Ok R /\
    forall strings,
      all ev R strings false
      = all ev (TranslatorBySequence [TranslatorBySequence a; TranslatorBySequence b])
          strings false /\
      first ev R strings false
      = first ev (TranslatorBySequence [TranslatorBySequence a; TranslatorBySequence b])
          strings false.
Proof.
  exists (TranslatorBySequence (a ++ b)).
  split; [unfold append; cbn [append_at]; apply new_sequence_ok|].
  intros strings. apply sequence_flatten.
Qed.

Lemma single_string_as_list ev (t : Translator) (str : string) :
  t <> SelfTranslator ->
  all ev t (Strs [str]) false = all ev t (Str str) false /\
  first ev t (Strs [str]) false = first ev t (Str str) false.
Proof. intros H. destruct t; try congruence; split; reflexivity. Qed.

(** X7: with [strings_first=True] the merged sequence answers as the
    sequence of the two sequences does, provided no child of either is
    the identity translator (which tells a string from the list of that
    string). *)
Theorem sequence_merge_strings_first ev (a b : list Translator) (strings : strings_arg) :
  Forall (fun t => t <> SelfTranslator) (a ++ b) ->
  all ev (TranslatorBySequence (a ++ b)) strings true
  = all ev (TranslatorBySequence [TranslatorBySequence a; TranslatorBySequence b])
      strings true /\
  first ev (TranslatorBySequence (a ++ b)) strings true
  = first ev (TranslatorBySequence [TranslatorBySequence a; TranslatorBySequence b])
      strings true.
Proof.
  intros Hself. rewrite Forall_forall in Hself.
  assert (Ha : forall t, t ∈ a -> t <> SelfTranslator)
    by (intros t Ht; apply Hself, elem_of_app; left; exact Ht).
  assert (Hb : forall t, t ∈ b -> t <> SelfTranslator)
    by (intros t Ht; apply Hself, elem_of_app; right; exact Ht).
  split.
  - cbn [all]. f_equal. apply for_each_ext. intros str _ r.
    rewrite (for_each_gather (child_items ev [str]) _ (a ++ b) r).
    2:{ intros r0 t Ht. unfold child_items.
        rewrite (proj1 (single_string_as_list ev t str (Hself t Ht))).
        destruct (all ev t (Str str) false) as [p|e]; simpl; [|reflexivity].
        apply merge_partial_items. }
    cbn [for_each]. rewrite !all_sequence_gather. cbn [as_list].
    rewrite gather_app.
    destruct (gather _ a) as [xa|e]; simpl; [|reflexivity].
    rewrite merge_partial_items, truthy_items_list. simpl.
    destruct (gather _ b) as [xb|e]; simpl; [|reflexivity].
    rewrite merge_partial_items, truthy_items_list. simpl.
    rewrite !extend_new_dedupe, extend_new_app. reflexivity.
  - cbn [first]. apply for_first_ext. intros str _.
    rewrite for_first_pair, for_first_app. cbn [first as_list].
    rewrite (for_first_ext (fun t => first ev t (Strs [str]) false)
               (fun t => first ev t (Str str) false) a)
      by (intros t Ht; apply single_string_as_list, Ha, Ht).
    rewrite (for_first_ext (fun t => first ev t (Strs [str]) false)
               (fun t => first ev t (Str str) false) b)
      by (intros t Ht; apply single_string_as_list, Hb, Ht).
    destruct (for_first _ a) as [[x|]|e]; reflexivity.
Qed.





Global Instance same_items_equivalence : Equivalence same_items.
Proof.
  split.
  - intros x acc. reflexivity.
  - intros x y H acc. symmetry. apply H.
  - intros x y z H1 H2 acc. rewrite H1. apply H2.
Qed.

Global Instance same_items_app :
  Proper (same_items ==> same_items ==> same_items) (@app value).
Proof.
  intros x x' Hx y y' Hy acc. rewrite !extend_new_app, Hx. apply Hy.
Qed.

Global Instance same_items_extend_new (acc : list value) :
  Proper (same_items ==> eq) (extend_new acc).
Proof. intros x y H. apply H. Qed.














(** X9: for two translators neither of which is the null translator,
    [A.prepend(B)] is [B.append(A)], exceptions included. *)
Theorem prepend_is_flipped_append rc (A B : Translator) :
  tag A <> NULL -> tag B <> NULL -> prepend rc A B = append rc B A.
Proof.
  intros HA HB. unfold prepend, append.
  destruct A as [sa|da pa|ta| |]; try (exfalso; apply HA; reflexivity);
    destruct B as [sb|db pb|tb| |]; try (exfalso; apply HB; reflexivity);
    try reflexivity.
  - exact (proj1 (sequence_merge_depth rc 1 sa (TranslatorByDict db pb) ltac:(discriminate))).
  - exact (proj1 (sequence_merge_depth rc 1 sa (TranslatorByRegex tb) ltac:(discriminate))).
  - exact (proj1 (sequence_merge_depth rc 1 sa SelfTranslator ltac:(discriminate))).
  - symmetry.
    exact (proj2 (sequence_merge_depth rc 1 sb (TranslatorByDict da pa) ltac:(discriminate))).
  - symmetry.
    exact (proj2 (sequence_merge_depth rc 1 sb (TranslatorByRegex ta) ltac:(discriminate))).
  - symmetry.
    exact (proj2 (sequence_merge_depth rc 1 sb SelfTranslator ltac:(discriminate))).
Qed.

(** X9 at a dictionary and a sequence. *)
Lemma prepend_is_flipped_append_witness :
  prepend PyRe.compile D1 (TranslatorBySequence [D2])
  = append PyRe.compile (TranslatorBySequence [D2]) D1.
Proof.
  apply prepend_is_flipped_append; discriminate.
Defined.

End MergingIsSequencing.

(** X7 at the two dictionaries of the tests. *)
Lemma sequence_merge_strings_first_witness :
  all no_eval (TranslatorBySequence ([D1] ++ [D2])) (Strs ["a"; "b"]) true
  = all no_eval (TranslatorBySequence [TranslatorBySequence [D1]; TranslatorBySequence [D2]])
      (Strs ["a"; "b"]) true.
Proof.
  refine (proj1 (sequence_merge_strings_first no_eval [D1] [D2] (Strs ["a"; "b"]) _)).
  repeat constructor; discriminate.
Defined.


(** With a stored [None] the two differ: the merged translator returns
    it, the sequence goes on to its second child.  A dictionary with a
    stored [None] lists it in [all] and returns it from [first]. *)
Example stored_none_ends_the_search :
  first no_eval (TranslatorByRegex [(any_pattern, VNone); (any_pattern, VStr "x")])
    (Str "s") false = Ok None /\
  first no_eval
    (TranslatorBySequence
       [TranslatorByRegex [(any_pattern, VNone)]; TranslatorByRegex [(any_pattern, VStr "x")]])
    (Str "s") false = Ok (Some (VStr "x")) /\
  all no_eval (TranslatorByDict (dict_of [("k", VNone)]) None) (Str "k") false
    = Ok (VList [VNone]) /\
  first no_eval (TranslatorByDict (dict_of [("k", VNone)]) None) (Str "k") false
    = Ok None /\
  all no_eval
    (TranslatorBySequence [TranslatorByDict (dict_of [("k", VNone)]) None;
                           TranslatorByDict (dict_of [("k", VStr "x")]) None])
    (Str "k") false = Ok (VList [VNone; VStr "x"]) /\
  first no_eval
    (TranslatorBySequence [TranslatorByDict (dict_of [("k", VNone)]) None;
                           TranslatorByDict (dict_of [("k", VStr "x")]) None])
    (Str "k") false = Ok (Some (VStr "x")).
Proof. repeat split; vm_compute; reflexivity. Qed.


(** ** When merging fails *)

Lemma last_item_of_nonempty (sequence : list Translator) :
  sequence <> [] -> exists tail, last_item sequence = Ok tail.
Proof.
  unfold last_item. destruct sequence as [|x l _] using rev_ind; [congruence|].
  intros _. rewrite map_app. cbn [map]. rewrite last_last. eexists. reflexivity.
Qed.

Lemma empty_sequence_false (sequence : list Translator) :
  empty_sequence (TranslatorBySequence sequence) = false -> sequence <> [].
Proof. destruct sequence; [discriminate|discriminate]. Qed.

Ltac close_merge :=
  repeat (cbn [append_at prepend_at res_bind tag TAG_eqb];
          rewrite ?new_regex_ok, ?new_sequence_ok);
  eexists; split; [reflexivity|reflexivity].

(** The merge of a sequence with children and a translator that is not a
    sequence, at the end of the sequence. *)
Ltac close_tail_merge :=
  rewrite append_at_sequence by discriminate;
  match goal with
  | |- context [last_item ?l] =>
      let lst := fresh "lst" in
      destruct (last_item_of_nonempty l ltac:(discriminate)) as [lst ->];
      destruct lst
  end;
  repeat (cbn [append_at prepend_at res_bind tag TAG_eqb];
          rewrite ?new_regex_ok, ?new_sequence_ok);
  (eexists; split; [reflexivity|]);
  try reflexivity;
  match goal with
  | |- context [removelast ?l] => destruct (removelast l); reflexivity
  end.

(** X10: [append] and [prepend] return a translator whenever neither
    argument is a sequence without children, and what they return is not
    a sequence without children either. *)
Theorem merge_of_nonempty rc (A B : Translator) :
  empty_sequence A = false -> empty_sequence B = false ->
  (exists R, append rc A B = Ok R /\ empty_sequence R = false) /\
  (exists R, prepend rc A B = Ok R /\ empty_sequence R = false).
Proof.
  intros HA HB. unfold append, prepend.
  destruct A as [sa|da pa|ta| |]; destruct B as [sb|db pb|tb| |];
    try (apply empty_sequence_false in HA);
    try (apply empty_sequence_false in HB);
    split;
    try (destruct sa as [|a0 sa']; [congruence|]; clear HA);
    try (destruct sb as [|b0 sb']; [congruence|]; clear HB);
    try close_merge;
    try (eexists; split; [eassumption|assumption]).
  all: try (destruct a0; close_merge).
  all: try (destruct b0; close_merge).
  all: try close_tail_merge.
  all: cbn [prepend_at]; close_tail_merge.
Qed.

(** X10 at two dictionaries. *)
Lemma merge_of_nonempty_witness :
  exists R, append PyRe.compile D1 D2 = Ok R /\ empty_sequence R = false.
Proof.
  refine (proj1 (merge_of_nonempty PyRe.compile D1 D2 _ _)); reflexivity.
Defined.

(** ** [first] and [all] agree *)

Section FirstAndAll.
Context {str_methods : StrMethods}.


Lemma elem_of_extend_new (x : value) (acc xs : list value) :
  x ∈ extend_new acc xs <-> x ∈ acc \/ x ∈ xs.
Proof.
  rewrite <- !value_in_elem_of, value_in_extend_new. apply orb_true_iff.
Qed.







End FirstAndAll.


(** ** What [all] contains *)

Section WhatAllContains.
Context {str_methods : StrMethods}.

Lemma gather_elem_of {A : Type} (g : A -> res (list value)) (xs : list A)
  (items : list value) (x : value) :
  gather g xs = Ok items ->
  (x ∈ items <-> exists a i, a ∈ xs /\ g a = Ok i /\ x ∈ i).
Proof.
  revert items. induction xs as [|a xs IH]; intros items H; simpl in H.
  - injection H as <-. split; [intros Hx; apply elem_of_nil in Hx; contradiction|].
    intros [a [i [Ha _]]]. apply elem_of_nil in Ha. contradiction.
  - destruct (g a) as [i|e] eqn:Ei; [|discriminate H]. simpl in H.
    destruct (gather g xs) as [ri|e]; [|discriminate H]. simpl in H.
    injection H as <-. rewrite elem_of_app, (IH ri eq_refl). split.
    + intros [Hx|[b [j [Hb [Hj Hx]]]]].
      * exists a, i. split; [left|split; assumption].
      * exists b, j. split; [right; exact Hb|split; assumption].
    + intros [b [j [Hb [Hj Hx]]]]. apply elem_of_cons in Hb.
      destruct Hb as [->|Hb].
      * left. rewrite Ei in Hj. injection Hj as ->. exact Hx.
      * right. exists b, j. split; [exact Hb|split; assumption].
Qed.

Lemma gather_Ok {A : Type} (g : A -> res (list value)) (xs : list A) :
  (exists items, gather g xs = Ok items) <-> (forall a, a ∈ xs -> exists i, g a = Ok i).
Proof.
  induction xs as [|a xs IH]; simpl.
  - split; [intros _ a Ha; apply elem_of_nil in Ha; contradiction|].
    intros _. eexists. reflexivity.
  - split.
    + intros [items H] b Hb.
      destruct (g a) as [i|e] eqn:Ei; [|discriminate H]. simpl in H.
      destruct (gather g xs) as [ri|e] eqn:Er; [|discriminate H].
      apply elem_of_cons in Hb. destruct Hb as [->|Hb]; [eexists; exact Ei|].
      apply (proj1 IH); [eexists; reflexivity|exact Hb].
    + intros H. destruct (H a ltac:(left)) as [i ->]. simpl.
      destruct (proj2 IH (fun b Hb => H b ltac:(right; exact Hb))) as [ri ->].
      simpl. eexists. reflexivity.
Qed.

(** X12: a dictionary translator without path translator never raises in
    [all], and what it returns holds exactly the expansions of the values
    stored under the strings it is asked about. *)
Theorem dict_all_exact ev (dict : gmap string value) (strings : strings_arg)
  (strings_first : bool) :
  exists l, all ev (TranslatorByDict dict None) strings strings_first = Ok (VList l) /\
    forall x, x ∈ l <->
      exists k result, k ∈ as_list strings /\ dict !! k = Some result /\
                       x ∈ dict_expand result k.
Proof.
  cbn [all res_bind]. rewrite all_dict_gather.
  assert (Hok : exists items, gather (key_items dict) (map VStr (as_list strings)) = Ok items).
  { apply gather_Ok. intros a Ha. apply list_elem_of_In, in_map_iff in Ha.
    destruct Ha as [k [<- _]]. unfold key_items. simpl. eexists. reflexivity. }
  destruct Hok as [items Hitems]. rewrite Hitems. simpl.
  eexists. split; [reflexivity|].
  intros x. rewrite elem_of_extend_new, (gather_elem_of _ _ _ x Hitems). split.
  - intros [Hx|[a [i [Ha [Hi Hx]]]]]; [apply elem_of_nil in Hx; contradiction|].
    apply list_elem_of_In, in_map_iff in Ha. destruct Ha as [k [<- Hk]].
    unfold key_items in Hi. simpl in Hi.
    destruct (dict !! k) as [result|] eqn:Ek; simpl in Hi; injection Hi as <-.
    + exists k, result. split; [apply list_elem_of_In, Hk|split; [exact Ek|exact Hx]].
    + apply elem_of_nil in Hx. contradiction.
  - intros [k [result [Hk [Hd Hx]]]]. right.
    exists (VStr k), (dict_expand result k).
    split; [apply list_elem_of_In, in_map, list_elem_of_In, Hk|].
    split; [|exact Hx]. unfold key_items. simpl. rewrite Hd. reflexivity.
Qed.

(** X13: for a pattern translator [strings_first] changes the order of
    the result of [all] and nothing else: when [all] returns in one order
    it returns in the other, and the two lists are permutations of each
    other, with exactly the values of the expansions of every rule on
    every string. *)
Theorem strings_first_permutes ev (tuples : list (Pattern * value))
  (strings : strings_arg) (l1 : list value) :
  all ev (TranslatorByRegex tuples) strings true = Ok (VList l1) ->
  exists l2, all ev (TranslatorByRegex tuples) strings false = Ok (VList l2) /\
    l1 ≡ₚ l2 /\
    forall x, x ∈ l1 <->
      exists t str e, t ∈ tuples /\ str ∈ as_list strings /\
                      expand ev (fst t) str (snd t) = Ok e /\ x ∈ e.
Proof.
  intros H1. rewrite (proj2 (all_regex_gather ev tuples strings)) in H1.
  destruct (gather (string_items ev tuples) (as_list strings)) as [it1|e] eqn:E1;
    [|discriminate H1].
  simpl in H1. injection H1 as <-.
  assert (Hexp : forall t str, t ∈ tuples -> str ∈ as_list strings ->
            exists e, expand ev (fst t) str (snd t) = Ok e).
  { intros t str Ht Hs.
    destruct (proj1 (gather_Ok _ _) (ex_intro _ it1 E1) str Hs) as [i Hi].
    exact (proj1 (gather_Ok _ _) (ex_intro _ i Hi) t Ht). }
  assert (H2 : exists it2, gather (rule_items ev (as_list strings)) tuples = Ok it2).
  { apply gather_Ok. intros t Ht. apply gather_Ok. intros str Hs.
    apply Hexp; assumption. }
  destruct H2 as [it2 E2].
  assert (Hmem1 : forall x, x ∈ extend_new [] it1 <->
            exists t str e, t ∈ tuples /\ str ∈ as_list strings /\
                            expand ev (fst t) str (snd t) = Ok e /\ x ∈ e).
  { intros x. rewrite elem_of_extend_new, (gather_elem_of _ _ _ x E1). split.
    - intros [Hx|[str [i [Hs [Hi Hx]]]]]; [apply elem_of_nil in Hx; contradiction|].
      apply (gather_elem_of _ _ _ x Hi) in Hx.
      destruct Hx as [t [e [Ht [He Hx]]]]. exists t, str, e. auto.
    - intros [t [str [e [Ht [Hs [He Hx]]]]]]. right.
      destruct (proj1 (gather_Ok _ _) (ex_intro _ it1 E1) str Hs) as [i Hi].
      exists str, i. split; [exact Hs|split; [exact Hi|]].
      apply (gather_elem_of _ _ _ x Hi). exists t, e. auto. }
  assert (Hmem2 : forall x, x ∈ extend_new [] it2 <->
            exists t str e, t ∈ tuples /\ str ∈ as_list strings /\
                            expand ev (fst t) str (snd t) = Ok e /\ x ∈ e).
  { intros x. rewrite elem_of_extend_new, (gather_elem_of _ _ _ x E2). split.
    - intros [Hx|[t [i [Ht [Hi Hx]]]]]; [apply elem_of_nil in Hx; contradiction|].
      apply (gather_elem_of _ _ _ x Hi) in Hx.
      destruct Hx as [str [e [Hs [He Hx]]]]. exists t, str, e. auto.
    - intros [t [str [e [Ht [Hs [He Hx]]]]]]. right.
      destruct (proj1 (gather_Ok _ _) (ex_intro _ it2 E2) t Ht) as [i Hi].
      exists t, i. split; [exact Ht|split; [exact Hi|]].
      apply (gather_elem_of _ _ _ x Hi). exists str, e. auto. }
  exists (extend_new [] it2).
  split; [rewrite (proj1 (all_regex_gather ev tuples strings)), E2; reflexivity|].
  split; [|exact Hmem1].
  apply NoDup_Permutation; try (apply extend_new_NoDup; constructor).
  intros x. rewrite Hmem1, Hmem2. reflexivity.
Qed.

End WhatAllContains.

(** X13 at two rules and two strings of the tests. *)
Lemma strings_first_permutes_witness :
  exists l2,
    (let* t := TranslatorByRegex_init PyRe.compile
                 [Rule2S "(\w+)" (VStr "prefix_\1"); Rule2S "(\d+)" (VStr "number_\1")] in
     all no_eval t (Strs ["test"; "123"]) false) = Ok (VList l2) /\
    [VStr "prefix_test"; VStr "prefix_123"; VStr "number_123"] ≡ₚ l2.
Proof.
  destruct (TranslatorByRegex_init PyRe.compile
              [Rule2S "(\w+)" (VStr "prefix_\1"); Rule2S "(\d+)" (VStr "number_\1")])
    as [t|e] eqn:Et; [|vm_compute in Et; discriminate Et].
  destruct t as [|?|tuples| |]; try (vm_compute in Et; discriminate Et).
  destruct (strings_first_permutes no_eval tuples (Strs ["test"; "123"])
              [VStr "prefix_test"; VStr "prefix_123"; VStr "number_123"])
    as [l2 [H2 [Hperm _]]].
  - vm_compute in Et. injection Et as <-. vm_compute. reflexivity.
  - exists l2. split; [exact H2|exact Hperm].
Defined.

(** ** The shape of an expansion *)

Section ShapeOfExpansion.
Context {str_methods : StrMethods}.

(** X14: when the pattern does not match, [expand] returns the empty
    list; when it matches and [expand] returns, there is one result per
    replacement, in order: a string for a string, a tuple of the same
    length for a tuple, with its elements that are not strings unchanged,
    and the replacement itself for anything else. *)
Theorem expand_shape ev (regex : Pattern) (str : string) (replacements : value)
  (l : list value) :
  expand ev regex str replacements = Ok l ->
  match pat_match regex str with
  | None => l = []
  | Some _ => Forall2 replacement_shape (as_replacements replacements) l
  end.
Proof. apply expand_items_shape. Qed.

End ShapeOfExpansion.

(** X14 at a tuple of the tests. *)
Lemma expand_shape_witness :
  Forall2 replacement_shape
    (as_replacements (VTuple [VInt 123; VStr "\1"]))
    [VTuple [VInt 123; VStr "test"]].
Proof.
  destruct word_pattern as [p|e] eqn:Ep; [|vm_compute in Ep; discriminate Ep].
  assert (Hm : exists m, pat_match p "test" = Some m).
  { vm_compute in Ep. injection Ep as <-. vm_compute. eexists. reflexivity. }
  assert (H : expand no_eval p "test" (VTuple [VInt 123; VStr "\1"])
              = Ok [VTuple [VInt 123; VStr "test"]]).
  { vm_compute in Ep. injection Ep as <-. vm_compute. reflexivity. }
  pose proof (expand_shape no_eval p "test" _ _ H) as Hs.
  destruct Hm as [m Hm]. rewrite Hm in Hs. exact Hs.
Defined.

(** ** Translators that cannot raise in [all] *)

Section TotalTranslators.
Context {str_methods : StrMethods}.

Lemma all_value_kind ev (t : Translator) (strings : strings_arg) (sf : bool) (v : value) :
  all ev t strings sf = Ok v -> exists l, py_iter v = Ok l.
Proof.
  destruct t as [sequence|dict pt|tuples| |]; cbn [all]; intros H.
  - apply res_map_Ok in H. destruct H as [l [_ ->]]. eexists. reflexivity.
  - destruct (match pt with Some _ => _ | None => _ end); [|discriminate H].
    cbn [res_bind] in H.
    apply res_map_Ok in H. destruct H as [l [_ ->]]. eexists. reflexivity.
  - apply res_map_Ok in H. destruct H as [l [_ ->]]. eexists. reflexivity.
  - injection H as <-. eexists. reflexivity.
  - injection H as <-. destruct strings; eexists; reflexivity.
Qed.

Lemma for_each_Ok {A B : Type} (body : B -> A -> res B) (xs : list A) :
  (forall acc x, x ∈ xs -> exists acc', body acc x = Ok acc') ->
  forall acc, exists r, for_each body acc xs = Ok r.
Proof.
  induction xs as [|x xs IH]; intros H acc; simpl; [eexists; reflexivity|].
  destruct (H acc x ltac:(left)) as [acc' ->]. simpl.
  apply IH. intros a y Hy. apply H. right. exact Hy.
Qed.

Lemma for_first_Ok_or {A B : Type} (f : A -> res (option B)) (xs : list A) (e : exn) :
  (forall x, x ∈ xs -> (exists r, f x = Ok r) \/ f x = Raise e) ->
  (exists r, for_first f xs = Ok r) \/ for_first f xs = Raise e.
Proof.
  induction xs as [|x xs IH]; intros H; simpl; [left; eexists; reflexivity|].
  destruct (H x ltac:(left)) as [[[b|] ->]| ->]; simpl.
  - left. eexists. reflexivity.
  - apply IH. intros y Hy. apply H. right. exact Hy.
  - right. reflexivity.
Qed.

Lemma res_map_Ok_or {A B : Type} (f : A -> B) (m : res A) (e : exn) :
  (exists r, m = Ok r) \/ m = Raise e ->
  (exists r, res_map f m = Ok r) \/ res_map f m = Raise e.
Proof.
  intros [[r ->]| ->]; [left; eexists; reflexivity|right; reflexivity].
Qed.

Lemma plain_child (sequence : list Translator) (t : Translator) :
  forallb plain sequence = true -> t ∈ sequence -> plain t = true.
Proof.
  intros H Ht. rewrite forallb_forall in H. apply H, list_elem_of_In, Ht.
Qed.

Lemma merge_partial_Ok ev (t : Translator) (strings : strings_arg) (sf : bool)
  (p : value) (results : list value) :
  all ev t strings sf = Ok p -> exists r, merge_partial results p = Ok r.
Proof.
  intros H. apply all_value_kind in H. destruct H as [l Hl].
  unfold merge_partial. destruct (truthy p); [|eexists; reflexivity].
  rewrite Hl. eexists. reflexivity.
Qed.

(** X15: a translator made of dictionaries without path translators, null
    and identity translators and sequences of such never raises in [all],
    whatever it is asked and whatever the evaluator; its [first] returns
    or raises [IndexError], nothing else. *)
Theorem plain_translator_total ev (t : Translator) (strings : strings_arg)
  (strings_first : bool) :
  plain t = true ->
  (exists v, all ev t strings strings_first = Ok v) /\
  ((exists r, first ev t strings strings_first = Ok r) \/
   first ev t strings strings_first = Raise IndexError).
Proof.
  revert strings strings_first.
  induction t as [sequence IH|dict|dict pt IH|tuples| |]
    using Translator_nested_ind; intros strings sf Hp; cbn [plain] in Hp;
    try discriminate Hp.
  - rewrite Forall_forall in IH. split.
    + cbn [all]. destruct sf.
      * destruct (for_each_Ok
                    (fun results str =>
                       for_each (fun results translator =>
                                   let* partial_results := all ev translator (Str str) false in
                                   merge_partial results partial_results) results sequence)
                    (as_list strings)) with (acc := @nil value) as [r Hr].
        { intros acc str _. apply for_each_Ok. intros acc0 t Ht.
          destruct (proj1 (IH t Ht (Str str) false (plain_child _ _ Hp Ht))) as [p Hpv].
          rewrite Hpv. simpl. eapply merge_partial_Ok, Hpv. }
        rewrite Hr. eexists. reflexivity.
      * destruct (for_each_Ok
                    (fun results translator =>
                       let* partial_results :=
                         all ev translator (Strs (as_list strings)) false in
                       merge_partial results partial_results) sequence)
          with (acc := @nil value) as [r Hr].
        { intros acc0 t Ht.
          destruct (proj1 (IH t Ht (Strs (as_list strings)) false (plain_child _ _ Hp Ht)))
            as [p Hpv].
          rewrite Hpv. simpl. eapply merge_partial_Ok, Hpv. }
        rewrite Hr. eexists. reflexivity.
    + cbn [first]. destruct sf.
      * apply for_first_Ok_or. intros str _. apply for_first_Ok_or. intros t Ht.
        apply (IH t Ht (Str str) false (plain_child _ _ Hp Ht)).
      * apply for_first_Ok_or. intros t Ht.
        apply (IH t Ht (Strs (as_list strings)) false (plain_child _ _ Hp Ht)).
  - split.
    + cbn [all res_bind]. rewrite all_dict_gather.
      assert (Hok : exists items,
                gather (key_items dict) (map VStr (as_list strings)) = Ok items).
      { apply gather_Ok. intros a Ha. apply list_elem_of_In, in_map_iff in Ha.
        destruct Ha as [k [<- _]]. eexists. reflexivity. }
      destruct Hok as [items ->]. eexists. reflexivity.
    + cbn [first res_bind]. apply res_map_Ok_or, for_first_Ok_or. intros key Hk.
      apply list_elem_of_In, in_map_iff in Hk. destruct Hk as [k [<- _]].
      simpl. destruct (dict !! k) as [result|]; simpl; [|left; eexists; reflexivity].
      destruct (dict_expand result k); simpl; [right; reflexivity|].
      left. eexists. reflexivity.
  - split; [eexists; reflexivity|left; eexists; reflexivity].
  - split; [eexists; reflexivity|].
    cbn [first]. destruct strings as [[|c s]|[|x l]];
      try (right; reflexivity); left; eexists; reflexivity.
Qed.

End TotalTranslators.

(** X15 at a sequence of a dictionary and the identity translator. *)
Lemma plain_translator_total_witness :
  exists v, all no_eval (TranslatorBySequence [D1; SelfTranslator]) (Strs ["a"; "z"]) true
            = Ok v.
Proof.
  refine (proj1 (plain_translator_total no_eval
                   (TranslatorBySequence [D1; SelfTranslator]) (Strs ["a"; "z"]) true _)).
  reflexivity.
Defined.

(** ** Text that is never evaluated *)

(** X16: a text in which one of the four characters [{], [}], [[], []]
    does not occur holds no in-line dictionary expression: it comes back
    unchanged and the evaluator is not asked. *)
Theorem evaluate_dict_without_brackets ev (s : string) :
  without_char "{" s || without_char "}" s
    || without_char "[" s || without_char "]" s = true ->
  findall_dict s = [] /\ _evaluate_dict ev s = Ok s.
Proof.
  intros H.
  assert (Hnone : findall_dict s = []).
  { destruct (findall_dict s) as [|d rest] eqn:Ef; [reflexivity|exfalso].
    destruct (findall_from_form s 0 d) as [[a [b Hd]] [pre [post Hs]]];
      [unfold findall_dict in Ef; rewrite Ef; left|].
    subst d. subst s.
    rewrite !without_char_app in H. simpl in H.
    rewrite ?without_char_app in H. simpl in H.
    repeat (first [rewrite andb_false_r in H|rewrite andb_false_l in H]; simpl in H).
    discriminate H. }
  split; [exact Hnone|]. unfold _evaluate_dict. rewrite Hnone. reflexivity.
Qed.

(** X16 at a replacement of the tests. *)
Lemma evaluate_dict_without_brackets_witness :
  findall_dict "processed/2024/observations.dat" = [] /\
  _evaluate_dict no_eval "processed/2024/observations.dat"
  = Ok "processed/2024/observations.dat".
Proof.
  apply evaluate_dict_without_brackets. reflexivity.
Defined.

(** ** The constructor of pattern translators *)

(** X17: [TranslatorByRegex] keeps the rules in their order, each with its
    replacement as given and with its pattern as given (compiled
    already) or compiled between [^] and [$]; it raises exactly what
    [re.compile] raises for one of the rules, and nothing else. *)
Theorem regex_init_keeps_rules rc (rules : list rule) :
  match TranslatorByRegex_init rc rules with
  | Ok T =>
      exists tuples, T = TranslatorByRegex tuples /\
        Forall2 (fun r t => rule_pattern rc r = Ok (fst t) /\ snd t = rule_replacement r)
          rules tuples
  | Raise e => exists r, r ∈ rules /\ rule_pattern rc r = Raise e
  end.
Proof. apply init_keeps_rules. Qed.

(** ** Looking a key up *)

Section KeyLookup.
Context {str_methods : StrMethods}.

Lemma str_replace_absent (new s : string) :
  without_char "\" s = true -> str_replace "\1" new s = s.
Proof.
  unfold str_replace. induction s as [|c s IH]; intros H; [reflexivity|].
  cbn [without_char] in H. apply andb_true_iff in H. destruct H as [Hc Hs].
  cbn [replace_from].
  assert (Hsw : startswith "\1" (String c s) = false).
  { cbn [startswith]. unfold is_char in *. rewrite Ascii.eqb_sym.
    destruct (Ascii.eqb c "\"); [discriminate Hc|reflexivity]. }
  rewrite Hsw. f_equal. apply IH, Hs.
Qed.

(** X18: asked about one string, a dictionary translator without path
    translator answers [None] and the empty list when the string is no
    key of the mapping; when it is the key of a stored string without
    backslash, it answers with that string as it is stored. *)
Theorem dict_lookup ev (dict : gmap string value) (k : string) (strings_first : bool) :
  (dict !! k = None ->
   first ev (TranslatorByDict dict None) (Str k) strings_first = Ok None /\
   all ev (TranslatorByDict dict None) (Str k) strings_first = Ok (VList [])) /\
  (forall s, dict !! k = Some (VStr s) -> without_char "\" s = true ->
   first ev (TranslatorByDict dict None) (Str k) strings_first = Ok (Some (VStr s)) /\
   all ev (TranslatorByDict dict None) (Str k) strings_first = Ok (VList [VStr s])).
Proof.
  split.
  - intros H. cbn. rewrite H. split; reflexivity.
  - intros s H Hs. cbn. rewrite H. cbn.
    change (replace_from "\1" k 0 s) with (str_replace "\1" k s).
    rewrite (str_replace_absent k s Hs). split; reflexivity.
Qed.

(** X3 at the dictionary of the tests of [keys]. *)
Lemma dict_keys_values_witness :
  "zebra" ∈ dict_keys (dict_of [("zebra", VStr "animal"); ("apple", VStr "fruit")]) /\
  Sorted ltb_rel (dict_keys (dict_of [("zebra", VStr "animal"); ("apple", VStr "fruit")])).
Proof.
  destruct (dict_keys_values
              (dict_of [("zebra", VStr "animal"); ("apple", VStr "fruit")]) None)
    as [_ [Hk [Hs _]]].
  split; [|exact Hs]. apply Hk. exists (VStr "animal"). reflexivity.
Defined.

End KeyLookup.

(** X18 at the dictionary of the tests. *)
Lemma dict_lookup_witness :
  first no_eval
    (TranslatorByDict (dict_of [("apple", VStr "fruit"); ("carrot", VStr "vegetable")]) None)
    (Str "apple") false = Ok (Some (VStr "fruit")) /\
  first no_eval
    (TranslatorByDict (dict_of [("apple", VStr "fruit"); ("carrot", VStr "vegetable")]) None)
    (Str "unknown") false = Ok None.
Proof.
  split.
  - refine (proj1 (proj2 (dict_lookup no_eval _ "apple" false) "fruit" _ _));
      reflexivity.
  - refine (proj1 (proj1 (dict_lookup no_eval _ "unknown" false) _)). reflexivity.
Defined.

(** X12 at the dictionary of the tests. *)
Lemma dict_all_exact_witness :
  exists l,
    all no_eval (TranslatorByDict (dict_of [("apple", VStr "fruit")]) None)
      (Strs ["apple"; "unknown"]) false = Ok (VList l) /\
    VStr "fruit" ∈ l.
Proof.
  destruct (dict_all_exact no_eval (dict_of [("apple", VStr "fruit")])
              (Strs ["apple"; "unknown"]) false) as [l [Hl Hmem]].
  exists l. split; [exact Hl|]. apply Hmem.
  exists "apple", (VStr "fruit"). split; [left|]. split; [reflexivity|left].
Defined.

(** ** Children of a sequence *)

Section ChildrenOfSequence.
Context {str_methods : StrMethods}.

Lemma child_items_null ev (strings : list string) :
  child_items ev strings NullTranslator = Ok [].
Proof. reflexivity. Qed.

(** X19: a null translator among the children of a sequence changes
    nothing: with it or without it the sequence answers [all] and [first]
    alike, in both orders of traversal. *)
Theorem null_child_is_neutral ev (a b : list Translator) (strings : strings_arg)
  (strings_first : bool) :
  all ev (TranslatorBySequence (a ++ NullTranslator :: b)) strings strings_first
  = all ev (TranslatorBySequence (a ++ b)) strings strings_first /\
  first ev (TranslatorBySequence (a ++ NullTranslator :: b)) strings strings_first
  = first ev (TranslatorBySequence (a ++ b)) strings strings_first.
Proof.
  split.
  - destruct strings_first.
    + rewrite !all_sequence_gather_strings_first. f_equal. f_equal.
      apply gather_ext. intros str _. rewrite !gather_app. cbn [gather all res_bind].
      destruct (gather _ a) as [x|e]; simpl; [|reflexivity].
      destruct (gather _ b) as [y|e]; reflexivity.
    + rewrite !all_sequence_gather. f_equal. rewrite !gather_app.
      cbn [gather]. rewrite child_items_null.
      destruct (gather _ a) as [x|e]; simpl; [|reflexivity].
      destruct (gather _ b) as [y|e]; reflexivity.
  - destruct strings_first; cbn [first].
    + apply for_first_ext. intros str _. rewrite !for_first_app. reflexivity.
    + rewrite !for_first_app. reflexivity.
Qed.

Lemma child_items_iter ev (strings : list string) (t : Translator) (items : list value) :
  child_items ev strings t = Ok items <->
  exists p, all ev t (Strs strings) false = Ok p /\ py_iter p = Ok items.
Proof.
  unfold child_items. split.
  - destruct (all ev t (Strs strings) false) as [p|e] eqn:Ep; [|discriminate].
    simpl. intros H. exists p. split; [reflexivity|].
    destruct (truthy p) eqn:Et; [exact H|]. injection H as <-.
    destruct (all_value_kind ev t _ _ p Ep) as [l Hl].
    destruct p as [s|n|l'|l'|]; simpl in *; try discriminate Hl;
      try (destruct l'; [reflexivity|discriminate Et]).
    destruct s; [reflexivity|discriminate Et].
  - intros [p [-> Hp]]. simpl. destruct (truthy p) eqn:Et; [exact Hp|].
    destruct p as [s|n|l'|l'|]; simpl in *; try discriminate Hp;
      try (destruct l'; [congruence|discriminate Et]).
    destruct s; [simpl in Hp; congruence|discriminate Et].
Qed.

(** X20: what a sequence returns from [all] with [strings_first=False]
    holds exactly the entries of what its children return when each is
    asked about the whole list of strings. *)
Theorem sequence_all_exact ev (sequence : list Translator) (strings : strings_arg)
  (l : list value) :
  all ev (TranslatorBySequence sequence) strings false = Ok (VList l) ->
  forall x, x ∈ l <->
    exists t p items, t ∈ sequence /\
      all ev t (Strs (as_list strings)) false = Ok p /\
      py_iter p = Ok items /\ x ∈ items.
Proof.
  rewrite all_sequence_gather. intros H x.
  destruct (gather (child_items ev (as_list strings)) sequence) as [its|e] eqn:Eg;
    [|discriminate H].
  simpl in H. injection H as <-.
  rewrite elem_of_extend_new, (gather_elem_of _ _ _ x Eg). split.
  - intros [Hx|[t [i [Ht [Hi Hx]]]]]; [apply elem_of_nil in Hx; contradiction|].
    apply child_items_iter in Hi. destruct Hi as [p [Hp Hi]].
    exists t, p, i. auto.
  - intros [t [p [i [Ht [Hp [Hi Hx]]]]]]. right. exists t, i.
    split; [exact Ht|]. split; [|exact Hx].
    apply child_items_iter. exists p. auto.
Qed.

End ChildrenOfSequence.

(** X20 at the sequence of the two dictionaries. *)
Lemma sequence_all_exact_witness :
  VStr "3" ∈ [VStr "1"; VStr "2"; VStr "3"; VStr "4"] <->
  exists t p items, t ∈ [D1; D2] /\
    all no_eval t (Strs ["a"; "b"]) false = Ok p /\
    py_iter p = Ok items /\ VStr "3" ∈ items.
Proof.
  refine (sequence_all_exact no_eval [D1; D2] (Strs ["a"; "b"]) _ _ (VStr "3")).
  vm_compute. reflexivity.
Defined.

